(** * Documentation downloader: a shallow embedding of [download_docs.py]

    The script fetches index documents ([llms.txt]) from a fixed registry of
    sources, extracts documentation URLs with a regular expression, maps every
    URL to a local path below [<output>/<source>/] and downloads the files that
    are not on disk yet.

    Layout of the development:
    - [PyStr]    : the [str] methods the script calls ([strip], [split], [in]);
    - [PosixPath]: [os.path.join], [os.path.dirname] and path components;
    - [FS]       : a tree model of the file system with [os.makedirs],
                   [os.path.exists] and [open(..., 'w')];
    - the effect monad (world state plus Python exceptions);
    - the program, function by function, in source order;
    - the properties.

    Conventions.  A Python [str] is a Rocq [string]; non-ASCII text is read as
    its UTF-8 bytes, for which substring search, splitting on ['/'] and
    lexicographic comparison agree with the code-point versions.  [print]
    calls are observability only and are left out.  The file system has
    directories and regular files only (no links, no permissions, no quota). *)

From Stdlib Require Import String Ascii List ZArith QArith Lia.
From stdpp Require Import base option gmap strings list sorting.

Local Open Scope string_scope.
Local Open Scope list_scope.

(** ** Python string methods *)

Module PyStr.

Definition sep : ascii := "/"%char.

(** [s.startswith(pre)] *)
Definition startswith (s pre : string) : bool := String.prefix pre s.

(** [s.endswith(c)] for a one-character [c] *)
Fixpoint endswith_char (s : string) (c : ascii) : bool :=
  match s with
  | EmptyString => false
  | String a EmptyString => bool_decide (a = c)
  | String _ s' => endswith_char s' c
  end.

(** [s.lstrip(c)] *)
Fixpoint lstrip (c : ascii) (s : string) : string :=
  match s with
  | EmptyString => EmptyString
  | String a s' => if bool_decide (a = c) then lstrip c s' else s
  end.

(** [s.rstrip(c)] *)
Fixpoint rstrip (c : ascii) (s : string) : string :=
  match s with
  | EmptyString => EmptyString
  | String a s' =>
      match rstrip c s' with
      | EmptyString => if bool_decide (a = c) then EmptyString else String a EmptyString
      | r => String a r
      end
  end.

(** [s.strip(c)] *)
Definition strip (c : ascii) (s : string) : string := rstrip c (lstrip c s).

(** [s.split(c)]: never the empty list, [''.split('/') == ['']]. *)
Fixpoint split (c : ascii) (s : string) : list string :=
  match s with
  | EmptyString => [EmptyString]
  | String a s' =>
      if bool_decide (a = c) then EmptyString :: split c s'
      else match split c s' with
           | [] => [String a EmptyString]
           | w :: ws => String a w :: ws
           end
  end.

(** [sub in s] *)
Fixpoint contains (sub s : string) : bool :=
  String.prefix sub s ||
  match s with
  | EmptyString => false
  | String _ s' => contains sub s'
  end.

(** [c in s] for a character *)
Fixpoint has_char (c : ascii) (s : string) : bool :=
  match s with
  | EmptyString => false
  | String a s' => bool_decide (a = c) || has_char c s'
  end.

(** Python truthiness of a [str]. *)
Definition truthy (s : string) : bool := negb (bool_decide (s = "")).

End PyStr.

(** ** [posixpath] *)

Module PosixPath.
Import PyStr.

(** One round of the loop in [posixpath.join]. *)
Definition join_step (path b : string) : string :=
  if startswith b "/" then b
  else if bool_decide (path = "") || endswith_char path sep then path ++ b
  else path ++ "/" ++ b.

(** [os.path.join(a, *p)] *)
Definition join (a : string) (p : list string) : string :=
  fold_left join_step p a.

(** [os.path.dirname(p)]: everything before the last slash, with trailing
    slashes removed unless the head consists of slashes only. *)
Fixpoint head_of (p : string) : string :=
  match p with
  | EmptyString => EmptyString
  | String a p' =>
      if has_char sep p then String a (head_of p') else EmptyString
  end.

Definition dirname (p : string) : string :=
  let head := head_of p in
  if bool_decide (lstrip sep head = "") then head else rstrip sep head.

Definition isabs (p : string) : bool := startswith p "/".

Definition nonempty (c : string) : Prop := c ≠ "".

(** The names a path walks through: the non-empty pieces between slashes. *)
Definition components (p : string) : list string :=
  filter nonempty (split sep p).

(** What [join] puts in front of the next name: the directory and, where
    one is missing, a separator. *)
Definition dir_prefix (d : string) : string :=
  if bool_decide (d = "") || endswith_char d sep then d else d ++ "/".

(** A name that denotes an entry of its directory: not empty, not [.] or [..]. *)
Definition plain_name (c : string) : Prop := c ≠ "" ∧ c ≠ "." ∧ c ≠ "..".

(** Two spellings of one path: same anchor, same names. *)
Definition same_path (p q : string) : Prop :=
  isabs p = isabs q ∧ components p = components q.

End PosixPath.

(** ** The file system *)

Module FS.
Import PyStr PosixPath.

Inductive node : Type :=
| Dir
| File (content : string).

#[global] Instance node_eq_dec : EqDecision node.
Proof. solve_decision. Defined.

(** Entries are keyed by their absolute list of names.  The root, the current
    directory and the ancestors of the current directory are directories that
    are always there. *)
Record t : Type := mk {
  cwd : list string;
  tree : gmap (list string) node
}.

Definition lookup_node (fs : t) (k : list string) : option node :=
  if bool_decide (k `prefix_of` cwd fs) then Some Dir else tree fs !! k.

Definition is_file (fs : t) (k : list string) : bool :=
  match lookup_node fs k with
  | Some (File _) => true
  | _ => false
  end.

Definition set_node (fs : t) (k : list string) (n : node) : t :=
  {| cwd := cwd fs; tree := <[k := n]> (tree fs) |}.

(** Where one name leads from directory [cur]. *)
Definition step (cur : list string) (c : string) : list string :=
  if bool_decide (c = "") || bool_decide (c = ".") then cur
  else if bool_decide (c = "..") then removelast cur
  else cur ++ [c].

(** Where a path starts: the root for an absolute path. *)
Definition start (fs : t) (p : string) : list string :=
  if isabs p then [] else cwd fs.

(** Path resolution: every name is looked up in a directory. *)
Fixpoint walk (fs : t) (cur : list string) (names : list string) : option (list string) :=
  match names with
  | [] => Some cur
  | c :: rest =>
      match lookup_node fs cur with
      | Some Dir => walk fs (step cur c) rest
      | _ => None
      end
  end.

Definition resolve (fs : t) (p : string) : option node :=
  if bool_decide (p = "") then None
  else walk fs (start fs p) (split sep p) ≫= lookup_node fs.

(** [os.path.exists(p)] *)
Definition exists_ (fs : t) (p : string) : bool :=
  bool_decide (is_Some (resolve fs p)).

(** [os.path.isdir(p)] *)
Definition isdir (fs : t) (p : string) : bool :=
  bool_decide (resolve fs p = Some Dir).

(** How a call that changes the file system ends: it completes, or it stops
    with an [OSError]; either way it leaves a file system behind. *)
Inductive outcome : Type :=
| Done (fs : t)
| Failed (fs : t).

(** The directory chain of [os.makedirs]: missing directories are created one
    name at a time; a regular file in the way stops it, and what was created
    before stays. *)
Fixpoint mkchain (fs : t) (cur : list string) (names : list string) : outcome :=
  if is_file fs cur then Failed fs
  else
    match names with
    | [] => Done fs
    | c :: rest =>
        let nxt := step cur c in
        let fs' := match lookup_node fs nxt with
                   | None => set_node fs nxt Dir
                   | Some _ => fs
                   end in
        mkchain fs' nxt rest
    end.

(** The file system a call leaves behind. *)
Definition outcome_fs (o : outcome) : t :=
  match o with
  | Done fs | Failed fs => fs
  end.

(** [os.makedirs(p, exist_ok=True)] *)
Definition makedirs (fs : t) (p : string) : outcome :=
  if bool_decide (p = "") then Failed fs
  else mkchain fs (start fs p) (split sep p).

(** No regular file sits on the chain of [p]. *)
Fixpoint clear_chain (fs : t) (cur : list string) (names : list string) : bool :=
  negb (is_file fs cur) &&
  match names with
  | [] => true
  | c :: rest => clear_chain fs (step cur c) rest
  end.

Definition unobstructed (fs : t) (p : string) : bool :=
  negb (bool_decide (p = "")) && clear_chain fs (start fs p) (split sep p).

(** [open(p, 'w').write(content)]: the parent must be a directory and the
    last name must not denote a directory. *)
Definition write_file (fs : t) (p content : string) : option t :=
  if bool_decide (p = "") then None
  else
    let names := split sep p in
    match last names, walk fs (start fs p) (removelast names) with
    | Some name, Some parent =>
        if bool_decide (name = "") || bool_decide (name = ".") || bool_decide (name = "..")
        then None
        else
          match lookup_node fs parent, lookup_node fs (parent ++ [name]) with
          | Some Dir, Some Dir => None
          | Some Dir, _ => Some (set_node fs (parent ++ [name]) (File content))
          | _, _ => None
          end
    | _, _ => None
    end.

(** [open(p).read()]: the content of the regular file at [p]. *)
Definition read_file (fs : t) (p : string) : option string :=
  match resolve fs p with
  | Some (File content) => Some content
  | _ => None
  end.

End FS.

(** ** Exceptions, the outside world and the effect monad *)

(** The exception classes the script can meet.  [HTTPError] is what
    [raise_for_status] raises; like every exception of [requests] it is a
    [RequestException]. *)
Inductive exn : Type :=
| RequestException (what : string)
| HTTPError (status : Z)
| OSError (what : string)
| ValueError (what : string)
| ReError (what : string)
| IndexError.

Definition is_RequestException (e : exn) : bool :=
  match e with
  | RequestException _ | HTTPError _ => true
  | _ => false
  end.

Inductive result (A : Type) : Type :=
| Ok (a : A)
| Raise (e : exn).
Arguments Ok {A} a.
Arguments Raise {A} e.

Record Request : Type := {
  req_method : string;
  req_url : string;
  req_headers : list (string * string);
  req_timeout : Z;
  req_allow_redirects : bool
}.

Record Response : Type := {
  status_code : Z;
  text : string
}.

(** [urlparse(url)]: the fields the script reads. *)
Record ParseResult : Type := {
  scheme : string;
  netloc : string;
  path : string
}.

(** What the run does to the outside, in order. *)
Inductive Event : Type :=
| EvRequest (r : Request)
| EvSleep (seconds : Q).

Record World : Type := {
  fs : FS.t;
  trace : list Event
}.

(** The library functions whose results the script only passes on: URL
    parsing, regular-expression search, and the remote servers, which may
    answer a request differently depending on what happened before. *)
Class Library : Type := {
  urlparse : string → result ParseResult;
  re_findall : string → string → result (list string);
  server : list Event → Request → result Response
}.

Definition M (A : Type) : Type := World → result A * World.

Definition ret {A} (a : A) : M A := λ w, (Ok a, w).

Definition raise {A} (e : exn) : M A := λ w, (Raise e, w).

Definition bind {A B} (m : M A) (k : A → M B) : M B := λ w,
  match m w with
  | (Ok a, w') => k a w'
  | (Raise e, w') => (Raise e, w')
  end.

(** [try: body  except Exception as e: handler(e)] *)
Definition try_except {A} (body : M A) (handler : exn → M A) : M A := λ w,
  match body w with
  | (Ok a, w') => (Ok a, w')
  | (Raise e, w') => handler e w'
  end.

Definition lift {A} (r : result A) : M A := λ w, (r, w).

Declare Scope py_scope.
Delimit Scope py_scope with py.
Notation "x <- m ;; k" := (bind m (λ x, k))
  (at level 100, m at next level, right associativity) : py_scope.
Local Open Scope py_scope.

Definition emit (e : Event) : M unit := λ w,
  (Ok tt, {| fs := fs w; trace := trace w ++ [e] |}).

(** [os.makedirs(p, exist_ok=True)] *)
Definition os_makedirs (p : string) : M unit := λ w,
  match FS.makedirs (fs w) p with
  | FS.Done fs' => (Ok tt, {| fs := fs'; trace := trace w |})
  | FS.Failed fs' => (Raise (OSError "makedirs"), {| fs := fs'; trace := trace w |})
  end.

(** [os.path.exists(p)] *)
Definition os_path_exists (p : string) : M bool := λ w,
  (Ok (FS.exists_ (fs w) p), w).

(** [with open(p, 'w', encoding='utf-8') as f: f.write(content)] *)
Definition open_write (p content : string) : M unit := λ w,
  match FS.write_file (fs w) p content with
  | Some fs' => (Ok tt, {| fs := fs'; trace := trace w |})
  | None => (Raise (OSError "open"), w)
  end.

(** [time.sleep(seconds)] *)
Definition time_sleep (seconds : Q) : M unit := emit (EvSleep seconds).

(** [response.raise_for_status()] *)
Definition raise_for_status (r : Response) : M unit :=
  if bool_decide (400 ≤ status_code r < 600)%Z then raise (HTTPError (status_code r))
  else ret tt.

(** [l[-1]] *)
Definition index_last {A} (l : list A) : M A :=
  match last l with
  | Some x => ret x
  | None => raise IndexError
  end.

(** ** The program *)

Record SourceConfig : Type := {
  sc_url : string;
  sc_pattern : string;
  sc_name : string
}.

(** [SOURCES] *)
Definition SOURCES : gmap string SourceConfig :=
  <["claude-docs" := {| sc_url := "https://docs.anthropic.com/llms.txt";
                        sc_pattern := "https://docs\.claude\.com/[^\s\)]+\.md";
                        sc_name := "Claude Docs" |}]>
  (<["claude-code" := {| sc_url := "https://code.claude.com/docs/llms.txt";
                         sc_pattern := "https://[^\s\)]+\.md";
                         sc_name := "Claude Code Docs" |}]> ∅).

Definition user_agent_headers : list (string * string) :=
  [("User-Agent", "Mozilla/5.0 (Windows NT 10.0; Win64; x64) AppleWebKit/537.36")].

(** A Discovered Link: [(url, source_name)]. *)
Abbreviation link := (string * string)%type.

(** The order of Python tuples of strings: by the first differing field. *)
Definition tuple_le (p q : link) : Prop :=
  (p.1 ≠ q.1 ∧ String.le p.1 q.1) ∨ (p.1 = q.1 ∧ String.le p.2 q.2).

#[global] Instance tuple_le_dec : RelDecision tuple_le.
Proof. intros p q. unfold tuple_le. apply _. Defined.

(** [sorted(s)] for a set of links. *)
Definition sorted (l : list link) : list link := merge_sort tuple_le l.

Record Args : Type := {
  arg_filter : option string;
  arg_output : string;
  arg_claude_docs : bool;
  arg_claude_code : bool;
  arg_no_follow_redirects : bool
}.

(** The three counters [main] prints at the end. *)
Record Tally : Type := {
  successful : nat;
  failed : nat;
  skipped : nat
}.

Section Program.
Context {lib : Library}.

(** [requests.get(url, headers=..., timeout=..., allow_redirects=...)];
    without the keyword, [requests] follows redirects. *)
Definition requests_get (url : string) (headers : list (string * string))
    (timeout : Z) (allow_redirects : option bool) : M Response := λ w,
  let r := {| req_method := "GET"; req_url := url; req_headers := headers;
              req_timeout := timeout;
              req_allow_redirects := default true allow_redirects |} in
  (server (trace w) r, {| fs := fs w; trace := trace w ++ [EvRequest r] |}).

(** [if filter_pattern: matches = [url for url in matches if filter_pattern in url]] *)
Definition apply_filter (filter_pattern : option string) (matches : list string) : list string :=
  match filter_pattern with
  | Some f => if PyStr.truthy f then filter (λ url, PyStr.contains f url = true) matches
              else matches
  | None => matches
  end.

(** [for url in matches: urls.add((url, source_name))] *)
Definition add_all (source_name : string) (matches : list string) (urls : gset link) : gset link :=
  foldl (λ acc url, acc ∪ {[ (url, source_name) ]}) urls matches.

Definition fetch_urls_from_source (source_name : string) (source_config : SourceConfig)
    (filter_pattern : option string) (follow_redirects : bool) : M (gset link) :=
  let urls : gset link := ∅ in
  try_except
    (response <- requests_get (sc_url source_config) user_agent_headers 30
                   (Some follow_redirects) ;;
     _ <- raise_for_status response ;;
     let content := text response in
     matches <- lift (re_findall (sc_pattern source_config) content) ;;
     let matches := apply_filter filter_pattern matches in
     ret (add_all source_name matches urls))
    (λ e, if is_RequestException e then ret urls else ret urls).

Fixpoint fetch_all_loop (sources : list string) (filter_pattern : option string)
    (follow_redirects : bool) (all_urls : gset link) : M (gset link) :=
  match sources with
  | [] => ret all_urls
  | source_name :: rest =>
      match SOURCES !! source_name with
      | Some cfg =>
          urls <- fetch_urls_from_source source_name cfg filter_pattern follow_redirects ;;
          fetch_all_loop rest filter_pattern follow_redirects (all_urls ∪ urls)
      | None => fetch_all_loop rest filter_pattern follow_redirects all_urls
      end
  end.

Definition fetch_all_urls (sources : list string) (filter_pattern : option string)
    (follow_redirects : bool) : M (gset link) :=
  fetch_all_loop sources filter_pattern follow_redirects ∅.

(** [parsed.path.strip('/').split('/')] *)
Definition path_parts_of (p : ParseResult) : list string :=
  PyStr.split PyStr.sep (PyStr.strip PyStr.sep (path p)).

Definition create_directory_structure (url base_dir source_name : string) : M string :=
  parsed <- lift (urlparse url) ;;
  let path_parts := path_parts_of parsed in
  let dir_path := PosixPath.join base_dir (source_name :: removelast path_parts) in
  _ <- os_makedirs dir_path ;;
  filename <- index_last path_parts ;;
  ret (PosixPath.join dir_path [filename]).

Definition download_file (url local_path : string) : M bool :=
  try_except
    (response <- requests_get url user_agent_headers 30 None ;;
     _ <- raise_for_status response ;;
     _ <- os_makedirs (PosixPath.dirname local_path) ;;
     _ <- open_write local_path (text response) ;;
     ret true)
    (λ e, if is_RequestException e then ret false else ret false).

(** One round of the [for] loop of [main]. *)
Definition process_entry (output : string) (entry : link) (t : Tally) : M Tally :=
  let '(url, source_name) := entry in
  local_path <- create_directory_structure url output source_name ;;
  present <- os_path_exists local_path ;;
  if present then
    ret {| successful := successful t; failed := failed t; skipped := S (skipped t) |}
  else
    ok <- download_file url local_path ;;
    let t' := if ok
              then {| successful := S (successful t); failed := failed t; skipped := skipped t |}
              else {| successful := successful t; failed := S (failed t); skipped := skipped t |} in
    _ <- time_sleep (1 # 2) ;;
    ret t'.

Fixpoint download_loop (output : string) (entries : list link) (t : Tally) : M Tally :=
  match entries with
  | [] => ret t
  | entry :: rest =>
      t' <- process_entry output entry t ;;
      download_loop output rest t'
  end.

Definition sources_to_fetch (args : Args) : list string :=
  if arg_claude_docs args || arg_claude_code args then
    (if arg_claude_docs args then ["claude-docs"] else []) ++
    (if arg_claude_code args then ["claude-code"] else [])
  else ["claude-docs"; "claude-code"].

(** [main]; the result is the tally it prints, [None] when it exits early
    with no URLs found. *)
Definition main (args : Args) : M (option Tally) :=
  let follow_redirects := negb (arg_no_follow_redirects args) in
  url_tuples <- fetch_all_urls (sources_to_fetch args) (arg_filter args) follow_redirects ;;
  if bool_decide (url_tuples = ∅) then ret None
  else
    _ <- os_makedirs (arg_output args) ;;
    t <- download_loop (arg_output args) (sorted (elements url_tuples))
           {| successful := 0; failed := 0; skipped := 0 |} ;;
    ret (Some t).

End Program.

(** ** Vocabulary of the properties *)

Section Vocabulary.
Context {lib : Library}.

(** The request [fetch_urls_from_source] sends for an index document. *)
Definition index_request (cfg : SourceConfig) (follow_redirects : bool) : Request :=
  {| req_method := "GET"; req_url := sc_url cfg; req_headers := user_agent_headers;
     req_timeout := 30; req_allow_redirects := follow_redirects |}.

(** The request a file download would send if it obeyed the caller's
    redirect toggle. *)
Definition file_request (url : string) (follow_redirects : bool) : Request :=
  {| req_method := "GET"; req_url := url; req_headers := user_agent_headers;
     req_timeout := 30; req_allow_redirects := follow_redirects |}.

(** The world once request [r] has been sent. *)
Definition after_request (w : World) (r : Request) : World :=
  {| fs := fs w; trace := trace w ++ [EvRequest r] |}.

(** The status codes for which [requests] reports an error (4xx and 5xx). *)
Definition error_status (r : Response) : Prop := (400 ≤ status_code r < 600)%Z.


(** The index document of source [name] is served and the source's pattern
    extracts [url] from it, whenever it is asked for. *)
Definition index_contains (name : string) (follow_redirects : bool) (url : string) : Prop :=
  ∃ cfg, SOURCES !! name = Some cfg ∧
    ∀ history, ∃ r matches,
      server history (index_request cfg follow_redirects) = Ok r ∧
      ¬ error_status r ∧
      re_findall (sc_pattern cfg) (text r) = Ok matches ∧
      url ∈ matches.

(** The retrieval of the file at [url] fails in world [w]: a network error,
    or a response with an error status. *)
Definition file_fetch_fails (url : string) (w : World) : Prop :=
  match server (trace w) (file_request url true) with
  | Raise _ => True
  | Ok r => error_status r
  end.

(** No server can be reached. *)
Definition offline : Prop :=
  ∀ history r, ∃ e, server history r = Raise e.

(** The index requests of a list of registered sources, in order. *)
Definition index_requests (registered : list (string * SourceConfig))
    (follow_redirects : bool) : list Event :=
  map (λ entry, EvRequest (index_request entry.2 follow_redirects)) registered.

(** [url] survives the optional substring filter. *)
Definition passes (filter_pattern : option string) (url : string) : Prop :=
  ∀ f, filter_pattern = Some f → f ≠ "" → PyStr.contains f url = true.


(** The path [create_directory_structure] computes, without its effects. *)
Definition local_target (url base_dir source_name : string) : option string :=
  match urlparse url with
  | Ok parsed =>
      let path_parts := path_parts_of parsed in
      let dir_path := PosixPath.join base_dir (source_name :: removelast path_parts) in
      (λ filename, PosixPath.join dir_path [filename]) <$> last path_parts
  | Raise _ => None
  end.

(** The union of [fetch_urls_from_source] over a list of registered sources,
    fetched in order. *)
Fixpoint union_of_fetches (registered : list (string * SourceConfig))
    (filter_pattern : option string) (follow_redirects : bool) : M (gset link) :=
  match registered with
  | [] => ret ∅
  | (name, cfg) :: rest =>
      urls <- fetch_urls_from_source name cfg filter_pattern follow_redirects ;;
      others <- union_of_fetches rest filter_pattern follow_redirects ;;
      ret (urls ∪ others)
  end.

(** The identifiers of a list that the registry knows, with their entries. *)
Definition registered_of (sources : list string) : list (string * SourceConfig) :=
  omap (λ name, (λ cfg, (name, cfg)) <$> SOURCES !! name) sources.

(** The events of one download attempt for [url]: the request, then the pause. *)
Definition attempt_events (url : string) : list Event :=
  [EvRequest (file_request url true); EvSleep (1 # 2)].

End Vocabulary.

Definition tally0 : Tally := {| successful := 0; failed := 0; skipped := 0 |}.

(** The tally after a skipped entry. *)
Definition skip (t : Tally) : Tally :=
  {| successful := successful t; failed := failed t; skipped := S (skipped t) |}.

(** The tally after a download attempt that reported [ok]. *)
Definition count (ok : bool) (t : Tally) : Tally :=
  if ok
  then {| successful := S (successful t); failed := failed t; skipped := skipped t |}
  else {| successful := successful t; failed := S (failed t); skipped := skipped t |}.


Definition sleeps (evs : list Event) : list Q :=
  omap (λ e, match e with EvSleep s => Some s | EvRequest _ => None end) evs.

(** ** A concrete library for the examples

    A small stand-in for the three library functions, used only to run the
    program on concrete inputs: URLs of the shape [scheme://host/path?query#frag],
    the two regular expressions of the registry, and servers given by a table. *)

Module Sample.
Import PyStr.

Fixpoint take_until (stops : list ascii) (s : string) : string :=
  match s with
  | EmptyString => EmptyString
  | String a s' => if bool_decide (a ∈ stops) then EmptyString else String a (take_until stops s')
  end.

Fixpoint drop_str (n : nat) (s : string) : string :=
  match n, s with
  | S n', String _ s' => drop_str n' s'
  | _, _ => s
  end.

Definition parse_url (url : string) : result ParseResult :=
  match String.index 0 "://" url with
  | Some i =>
      let rest := drop_str (i + 3) url in
      let host := take_until ["/"; "?"; "#"]%char rest in
      Ok {| scheme := String.substring 0 i url;
            netloc := host;
            path := take_until ["?"; "#"]%char (drop_str (String.length host) rest) |}
  | None => Ok {| scheme := ""; netloc := ""; path := take_until ["?"; "#"]%char url |}
  end.

(** The class [[^\s\)]] on ASCII text. *)
Definition url_char (a : ascii) : bool :=
  negb (bool_decide (a ∈ [" "; ")"; "009"; "010"; "011"; "012"; "013"]%char)).

Fixpoint take_run (s : string) : string :=
  match s with
  | EmptyString => EmptyString
  | String a s' => if url_char a then String a (take_run s') else EmptyString
  end.

(** The longest prefix of [r] of the shape [<one or more characters>.md]. *)
Fixpoint greedy_md (r : string) : option string :=
  match r with
  | EmptyString => None
  | String a r' =>
      match greedy_md r' with
      | Some m => Some (String a m)
      | None => if String.prefix ".md" r' then Some (String a ".md") else None
      end
  end.

(** A match of [<literal>[^\s\)]+\.md] at the start of [s]. *)
Definition match_at (literal s : string) : option string :=
  if String.prefix literal s
  then (λ m, (literal ++ m)%string) <$> greedy_md (take_run (drop_str (String.length literal) s))
  else None.

(** Left-to-right, non-overlapping matches; [skip] characters belong to the
    previous match. *)
Fixpoint scan (literal : string) (skip : nat) (s : string) : list string :=
  match s with
  | EmptyString => []
  | String _ s' =>
      match skip with
      | S k => scan literal k s'
      | O =>
          match match_at literal s with
          | Some m => m :: scan literal (String.length m - 1) s'
          | None => scan literal 0 s'
          end
      end
  end.

Definition findall (pattern content : string) : result (list string) :=
  if bool_decide (pattern = "https://docs\.claude\.com/[^\s\)]+\.md")
  then Ok (scan "https://docs.claude.com/" 0 content)
  else if bool_decide (pattern = "https://[^\s\)]+\.md")
  then Ok (scan "https://" 0 content)
  else Raise (ReError "pattern not interpreted").

(** A server table: the answer for each URL; anything else is unreachable. *)
Definition serve (table : list (string * result Response)) (h : list Event) (r : Request)
    : result Response :=
  match list_find (λ e, e.1 = req_url r) table with
  | Some (_, (_, answer)) => answer
  | None => Raise (RequestException "connection failed")
  end.

Definition library (table : list (string * result Response)) : Library :=
  {| urlparse := parse_url; re_findall := findall; server := serve table |}.

Definition page (body : string) : result Response :=
  Ok {| status_code := 200; text := body |}.

Definition empty_fs : FS.t := {| FS.cwd := ["work"]; FS.tree := ∅ |}.

Definition world0 : World := {| fs := empty_fs; trace := [] |}.

Definition docs_cfg : SourceConfig :=
  {| sc_url := "https://docs.anthropic.com/llms.txt";
     sc_pattern := "https://docs\.claude\.com/[^\s\)]+\.md";
     sc_name := "Claude Docs" |}.

Definition code_cfg : SourceConfig :=
  {| sc_url := "https://code.claude.com/docs/llms.txt";
     sc_pattern := "https://[^\s\)]+\.md";
     sc_name := "Claude Code Docs" |}.

(** Both index documents list the same page; the second source also lists
    one of its own, twice.  The first index is the scenario of the spec. *)
Definition two_indexes : list (string * result Response) :=
  [("https://docs.anthropic.com/llms.txt",
    page "See https://docs.claude.com/en/api.md and https://docs.claude.com/en/guide.md");
   ("https://code.claude.com/docs/llms.txt",
    page "(https://docs.claude.com/en/api.md) https://code.claude.com/docs/en/setup.md https://code.claude.com/docs/en/setup.md");
   ("https://docs.claude.com/en/api.md", page "# API")].

(** The first index is served; the second answers HTTP 500. *)
Definition one_index_down : list (string * result Response) :=
  [("https://docs.anthropic.com/llms.txt",
    page "See https://docs.claude.com/en/api.md and https://docs.claude.com/en/guide.md");
   ("https://code.claude.com/docs/llms.txt",
    Ok {| status_code := 500; text := "Internal Server Error" |});
   ("https://docs.claude.com/en/api.md", page "# API")].

(** [download_docs.py --claude-docs --filter api --output out --no-follow-redirects] *)
Definition args_no_follow : Args :=
  {| arg_filter := Some "api"; arg_output := "out";
     arg_claude_docs := true; arg_claude_code := false;
     arg_no_follow_redirects := true |}.

(** A file system in which [out/claude-docs/en/api.md] is on disk. *)
Definition mirrored_fs : FS.t :=
  {| FS.cwd := ["work"];
     FS.tree := <[ ["work"; "out"] := FS.Dir ]>
                (<[ ["work"; "out"; "claude-docs"] := FS.Dir ]>
                 (<[ ["work"; "out"; "claude-docs"; "en"] := FS.Dir ]>
                  (<[ ["work"; "out"; "claude-docs"; "en"; "api.md"] := FS.File "# API" ]> ∅))) |}.

Definition mirrored_world : World := {| fs := mirrored_fs; trace := [] |}.

(** The same, once the index of the first source has been fetched. *)
Definition mirrored_world_indexed : World :=
  {| fs := mirrored_fs; trace := [EvRequest (index_request docs_cfg false)] |}.

(** A file system in which the directories [out/claude-docs/en] are in
    place and hold no file yet. *)
Definition prepared_fs : FS.t :=
  {| FS.cwd := ["work"];
     FS.tree := <[ ["work"; "out"] := FS.Dir ]>
                (<[ ["work"; "out"; "claude-docs"] := FS.Dir ]>
                 (<[ ["work"; "out"; "claude-docs"; "en"] := FS.Dir ]> ∅)) |}.

Definition prepared_world : World := {| fs := prepared_fs; trace := [] |}.

(** A file system in which a regular file sits at [out]. *)
Definition blocked_fs : FS.t :=
  {| FS.cwd := ["work"]; FS.tree := <[ ["work"; "out"] := FS.File "notes" ]> ∅ |}.

Definition blocked_world : World := {| fs := blocked_fs; trace := [] |}.

(** [download_docs.py --output out] *)
Definition args_default : Args :=
  {| arg_filter := None; arg_output := "out";
     arg_claude_docs := false; arg_claude_code := false;
     arg_no_follow_redirects := false |}.

(** The page of the first index that the table serves. *)
Definition api_url : string := "https://docs.claude.com/en/api.md".

End Sample.

(** * Properties *)

#[local] Set Warnings "-clear-no-such-hyp".
#[local] Arguments String.append !_ _ / : simpl nomatch.
#[local] Arguments String.prefix : simpl never.
#[local] Arguments PyStr.startswith : simpl never.
#[local] Arguments PosixPath.isabs : simpl never.

(** ** Strings *)

Module PyStrFacts.
Import PyStr.

Lemma split_not_nil c s : split c s ≠ [].
Proof.
  destruct s as [|a s]; simpl; [done|].
  case_bool_decide; [done|]. by destruct (split c s).
Qed.

Lemma split_cons c a s :
  a ≠ c → ∃ w ws, split c s = w :: ws ∧ split c (String a s) = String a w :: ws.
Proof.
  intros Hne. destruct (split c s) as [|w ws] eqn:E.
  - by destruct (split_not_nil c s).
  - exists w, ws. split; [done|]. simpl. rewrite bool_decide_eq_false_2 by done.
    by rewrite E.
Qed.

(** Splitting distributes over a separator. *)
Lemma split_app_sep c a b :
  split c (a ++ String c b) = split c a ++ split c b.
Proof.
  induction a as [|x a IH]; simpl.
  - by rewrite bool_decide_eq_true_2.
  - case_bool_decide; [by rewrite IH|].
    rewrite IH. destruct (split c a) as [|w ws] eqn:E; [|done].
    by destruct (split_not_nil c a).
Qed.

Lemma split_sep_free c s : has_char c s = false → split c s = [s].
Proof.
  induction s as [|a s IH]; simpl; [done|].
  intros [Ha Hs]%orb_false_iff. rewrite Ha, (IH Hs). done.
Qed.

Lemma split_pieces_sep_free c s : Forall (λ x, has_char c x = false) (split c s).
Proof.
  induction s as [|a s IH]; simpl; [by repeat constructor|].
  case_bool_decide as Ha.
  - by constructor.
  - destruct (split c s) as [|w ws]; [by repeat constructor; simpl; rewrite bool_decide_eq_false_2|].
    inversion_clear IH. constructor; [|done].
    simpl. by rewrite bool_decide_eq_false_2.
Qed.

Lemma str_prefix_nil s : String.prefix "" s = true.
Proof. by destruct s. Qed.

Lemma startswith_cons c a s :
  startswith (String a s) (String c "") = bool_decide (a = c).
Proof.
  unfold startswith.
  change (String.prefix (String c "") (String a s))
    with (if ascii_dec c a then String.prefix "" s else false).
  destruct (ascii_dec c a) as [<-|Hne].
  - by rewrite str_prefix_nil, bool_decide_eq_true_2.
  - by rewrite bool_decide_eq_false_2.
Qed.


Lemma has_char_app c a b : has_char c (a ++ b) = has_char c a || has_char c b.
Proof. induction a as [|x a IH]; simpl; [done|]. by rewrite IH, orb_assoc. Qed.

Lemma app_nil_r_str (s : string) : (s ++ "")%string = s.
Proof. induction s; simpl; congruence. Qed.

Lemma app_assoc_str (a b c : string) : ((a ++ b) ++ c = a ++ (b ++ c))%string.
Proof. induction a; simpl; congruence. Qed.

Lemma app_eq_nil_str (a b : string) : (a ++ b)%string = "" → a = "" ∧ b = "".
Proof. by destruct a. Qed.

(** The last piece of a split is what follows the last separator. *)
Lemma last_split_app c a b :
  has_char c b = false → last (split c (a ++ String c b)) = Some b.
Proof.
  intros Hb. rewrite split_app_sep, (split_sep_free _ _ Hb).
  by rewrite last_snoc.
Qed.


Lemma endswith_char_inv s c :
  endswith_char s c = true → ∃ s', s = (s' ++ String c "")%string.
Proof.
  induction s as [|a s IH]; simpl; [done|].
  destruct s as [|b s].
  - intros ->%bool_decide_eq_true. by exists "".
  - intros [s' ->]%IH. by exists (String a s').
Qed.



(** ** [strip] leaves no separator at either end *)






(** The first piece of a split is empty only in front of a separator. *)
Lemma split_head c s :
  s ≠ "" → startswith s (String c "") = false →
  ∃ w ws, split c s = w :: ws ∧ w ≠ "".
Proof.
  destruct s as [|a s]; [done|]. intros _ Hs.
  rewrite startswith_cons in Hs. apply bool_decide_eq_false in Hs as Hne.
  destruct (split_cons c a s) as (w & ws & _ & ->); [done|]. by exists (String a w), ws.
Qed.


End PyStrFacts.

(** ** Paths *)

Module PathFacts.
Import PyStr PosixPath PyStrFacts.

Lemma components_unfold p : components p = filter nonempty (split sep p).
Proof. done. Qed.

Lemma components_app_sep a b :
  components (a ++ String sep b) = components a ++ components b.
Proof. unfold components. by rewrite split_app_sep, filter_app. Qed.

Lemma split_app_slash a b :
  split sep (a ++ "/" ++ b) = split sep a ++ split sep b.
Proof. apply (split_app_sep sep). Qed.

Lemma components_app_slash a b :
  components (a ++ "/" ++ b) = components a ++ components b.
Proof. apply components_app_sep. Qed.

Lemma components_nil : components "" = [].
Proof. done. Qed.


Lemma startswith_sep_free s : has_char sep s = false → startswith s "/" = false.
Proof.
  destruct s as [|a s]; [done|]. rewrite startswith_cons. simpl.
  by intros [Ha _]%orb_false_iff.
Qed.

Lemma isabs_app p q : p ≠ "" → isabs (p ++ q) = isabs p.
Proof.
  destruct p as [|a p]; [done|]. intros _. unfold isabs. simpl.
  by rewrite !startswith_cons.
Qed.

Lemma join_step_prefix d b :
  startswith b "/" = false → join_step d b = (dir_prefix d ++ b)%string.
Proof.
  intros Hb. unfold join_step, dir_prefix. rewrite Hb.
  destruct (bool_decide (d = "") || endswith_char d sep); [done|].
  by rewrite app_assoc_str.
Qed.

Lemma dir_prefix_nil d : dir_prefix d = "" ↔ d = "".
Proof.
  unfold dir_prefix. case_bool_decide as E; simpl; [by subst|].
  destruct (endswith_char d sep); [done|].
  split; [|done]. by intros [? _]%app_eq_nil_str.
Qed.

Lemma dir_prefix_components d : components (dir_prefix d) = components d.
Proof.
  unfold dir_prefix. destruct (bool_decide (d = "") || endswith_char d sep); [done|].
  change (d ++ "/")%string with (d ++ String sep "")%string.
  by rewrite components_app_sep, components_nil, app_nil_r.
Qed.

Lemma dir_prefix_isabs d : isabs (dir_prefix d) = isabs d.
Proof.
  unfold dir_prefix. case_bool_decide as E; simpl; [done|].
  destruct (endswith_char d sep); [done|]. by apply isabs_app.
Qed.

Lemma dir_prefix_same_path d : same_path (dir_prefix d) d.
Proof. split; [apply dir_prefix_isabs | apply dir_prefix_components]. Qed.

(** Behind a directory prefix, a name that holds no separator is one piece. *)
Lemma dir_prefix_split d b :
  has_char sep b = false →
  split sep (dir_prefix d ++ b) = split sep (dir_prefix d) ++ [b] ∨
  (d = "" ∧ split sep (dir_prefix d ++ b) = [b]) ∨
  ∃ d', dir_prefix d = (d' ++ String sep "")%string ∧
        split sep (dir_prefix d ++ b) = split sep d' ++ [b].
Proof.
  intros Hb. unfold dir_prefix. case_bool_decide as E; simpl.
  - subst. right; left. split; [done|]. by apply split_sep_free.
  - right; right. destruct (endswith_char d sep) eqn:Hend.
    + apply endswith_char_inv in Hend as [d' ->]. exists d'. split; [done|].
      by rewrite app_assoc_str, split_app_slash, (split_sep_free sep b Hb).
    + exists d. split; [done|].
      by rewrite app_assoc_str, split_app_slash, (split_sep_free sep b Hb).
Qed.






Lemma join_cons d x l : join d (x :: l) = join (join_step d x) l.
Proof. done. Qed.

Lemma join_snoc d l x : join d (l ++ [x]) = join_step (join d l) x.
Proof. unfold join. by rewrite fold_left_app. Qed.








Lemma same_path_sym p q : same_path p q → same_path q p.
Proof. by intros [??]. Qed.


(** Only the empty string spells the empty path. *)
Lemma same_path_nil p : same_path "" p → p = "".
Proof.
  intros [Habs Hc]. destruct (decide (p = "")) as [|Hne]; [done|].
  destruct (split_head sep p Hne) as (w & ws & Hsplit & Hw).
  { symmetry. apply Habs. }
  unfold components in Hc. rewrite Hsplit, filter_cons_True in Hc by done. done.
Qed.

End PathFacts.

(** ** The file system *)

Module FSFacts.
Import PyStr PosixPath PyStrFacts PathFacts FS.

Lemma lookup_root fs : lookup_node fs [] = Some Dir.
Proof. unfold lookup_node. rewrite bool_decide_eq_true_2; [done|apply list.prefix_nil]. Qed.

Lemma lookup_cwd fs : lookup_node fs (cwd fs) = Some Dir.
Proof. unfold lookup_node. by rewrite bool_decide_eq_true_2. Qed.

Lemma lookup_start fs p : lookup_node fs (start fs p) = Some Dir.
Proof. unfold start. destruct (isabs p); [apply lookup_root|apply lookup_cwd]. Qed.

(** A fresh directory changes the lookup of its own key only. *)
Lemma lookup_set_dir fs k k' :
  lookup_node fs k = None →
  lookup_node (set_node fs k Dir) k' =
    if decide (k' = k) then Some Dir else lookup_node fs k'.
Proof.
  unfold lookup_node, set_node. simpl. intros Hk.
  destruct (decide (k' = k)) as [->|Hne].
  - destruct (bool_decide (k `prefix_of` cwd fs)); [done|]. by rewrite lookup_insert_eq.
  - destruct (bool_decide (k' `prefix_of` cwd fs)); [done|]. by rewrite lookup_insert_ne.
Qed.

Lemma lookup_set_dir_mono fs k k' n :
  lookup_node fs k = None → lookup_node fs k' = Some n →
  lookup_node (set_node fs k Dir) k' = Some n.
Proof.
  intros Hk Hk'. rewrite lookup_set_dir by done.
  destruct (decide (k' = k)) as [->|]; [congruence|done].
Qed.

Lemma is_file_set_dir fs k k' :
  lookup_node fs k = None → is_file (set_node fs k Dir) k' = is_file fs k'.
Proof.
  intros Hk. unfold is_file. rewrite lookup_set_dir by done.
  destruct (decide (k' = k)) as [->|]; [by rewrite Hk|done].
Qed.

Lemma clear_chain_set_dir fs k cur names :
  lookup_node fs k = None →
  clear_chain (set_node fs k Dir) cur names = clear_chain fs cur names.
Proof.
  intros Hk. revert cur. induction names as [|c rest IH]; intros cur; simpl;
    rewrite is_file_set_dir by done; [done|]. by rewrite IH.
Qed.

(** [os.makedirs] succeeds exactly when no regular file is in the way. *)
Lemma mkchain_clear fs cur names :
  (∃ fs', mkchain fs cur names = Done fs') ↔ clear_chain fs cur names = true.
Proof.
  revert fs cur. induction names as [|c rest IH]; intros fs cur; simpl.
  - destruct (is_file fs cur); simpl; [|by split; eauto]. split; [by intros [??]|done].
  - destruct (is_file fs cur); simpl; [split; [by intros [??]|done]|].
    rewrite IH. destruct (lookup_node fs (step cur c)) eqn:E; [done|].
    by rewrite clear_chain_set_dir.
Qed.

(** It only adds directories. *)
Lemma mkchain_mono fs cur names fs' :
  mkchain fs cur names = Done fs' →
  cwd fs' = cwd fs ∧ ∀ k n, lookup_node fs k = Some n → lookup_node fs' k = Some n.
Proof.
  revert fs cur. induction names as [|c rest IH]; intros fs cur; simpl.
  - destruct (is_file fs cur); [done|]. by intros [= <-].
  - destruct (is_file fs cur); [done|].
    destruct (lookup_node fs (step cur c)) eqn:E; intros Hmk.
    + by apply IH in Hmk.
    + apply IH in Hmk as [Hcwd Hmono]. split; [done|].
      intros k n Hk. apply Hmono. by apply lookup_set_dir_mono.
Qed.

(** Afterwards the whole chain resolves, and ends in a directory. *)
Lemma mkchain_walk fs cur names fs' :
  lookup_node fs cur = Some Dir →
  mkchain fs cur names = Done fs' →
  ∃ k, walk fs' cur names = Some k ∧ lookup_node fs' k = Some Dir.
Proof.
  revert fs cur. induction names as [|c rest IH]; intros fs cur Hcur; simpl.
  - destruct (is_file fs cur); [done|]. intros [= <-]. by exists cur.
  - destruct (is_file fs cur); [done|].
    destruct (lookup_node fs (step cur c)) as [[|content]|] eqn:E; intros Hmk.
    + pose proof (mkchain_mono _ _ _ _ Hmk) as [_ Hmono].
      rewrite (Hmono _ _ Hcur). by apply (IH fs).
    + exfalso. revert Hmk. destruct rest; simpl; unfold is_file; by rewrite E.
    + pose proof (mkchain_mono _ _ _ _ Hmk) as [_ Hmono].
      rewrite (Hmono cur Dir) by (by apply lookup_set_dir_mono).
      apply (IH (set_node fs (step cur c) Dir)); [|done].
      rewrite lookup_set_dir by done. by rewrite decide_True.
Qed.

Lemma walk_app fs cur l1 l2 :
  walk fs cur (l1 ++ l2) = walk fs cur l1 ≫= λ k, walk fs k l2.
Proof.
  revert cur. induction l1 as [|c l1 IH]; intros cur; simpl; [done|].
  destruct (lookup_node fs cur) as [[|?]|]; [apply IH|done..].
Qed.

(** A path that resolves passes through directories only. *)
Lemma walk_snoc_inv fs cur l c k' :
  walk fs cur (l ++ [c]) = Some k' →
  ∃ k, walk fs cur l = Some k ∧ lookup_node fs k = Some Dir.
Proof.
  rewrite walk_app. destruct (walk fs cur l) as [k|]; [|done]. simpl.
  destruct (lookup_node fs k) as [[|?]|] eqn:E; [|done..]. by exists k.
Qed.

(** On a chain that is there already, [os.makedirs] changes nothing. *)
Lemma mkchain_noop fs cur names k :
  walk fs cur names = Some k → lookup_node fs k = Some Dir →
  mkchain fs cur names = Done fs.
Proof.
  revert cur. induction names as [|c rest IH]; intros cur; simpl.
  - intros [= ->] Hk. unfold is_file. by rewrite Hk.
  - unfold is_file. destruct (lookup_node fs cur) as [[|?]|] eqn:E; [|done..].
    intros Hw Hk. specialize (IH _ Hw Hk).
    destruct (lookup_node fs (step cur c)) eqn:E'; [done|].
    exfalso. destruct rest; simpl in Hw.
    + by simplify_eq.
    + by rewrite E' in Hw.
Qed.


(** Empty names between slashes do not matter for a directory. *)
Lemma walk_dir_filter fs cur names :
  walk fs cur names ≫= lookup_node fs = Some Dir ↔
  walk fs cur (filter nonempty names) ≫= lookup_node fs = Some Dir.
Proof.
  revert cur. induction names as [|c rest IH]; intros cur; [done|].
  destruct (decide (c = "")) as [->|Hc].
  - rewrite filter_cons_False by (by intros ?). simpl. rewrite <- IH.
    destruct (lookup_node fs cur) as [[|?]|] eqn:E; [done|..];
      split; try done; intros Hw; exfalso;
      destruct rest; simpl in Hw; rewrite E in Hw; done.
  - rewrite filter_cons_True by done. simpl.
    destruct (lookup_node fs cur) as [[|?]|]; [apply IH|done..].
Qed.


(** *** The same facts for path strings *)

Lemma start_same_path fs p q : same_path p q → start fs p = start fs q.
Proof. intros [Habs _]. unfold start. by rewrite Habs. Qed.

Lemma isdir_components fs p :
  p ≠ "" →
  isdir fs p = true ↔
  walk fs (start fs p) (components p) ≫= lookup_node fs = Some Dir.
Proof.
  intros Hp. unfold isdir, resolve. rewrite (bool_decide_eq_false_2 (p = "")) by done.
  rewrite bool_decide_eq_true. apply walk_dir_filter.
Qed.

Lemma isdir_same_path fs p q :
  same_path p q → isdir fs p = isdir fs q.
Proof.
  intros Hpq. destruct (decide (p = "")) as [->|Hp].
  { by rewrite (same_path_nil q Hpq). }
  assert (q ≠ "") as Hq.
  { intros ->. by apply same_path_sym, same_path_nil in Hpq. }
  apply eq_true_iff_eq. rewrite !isdir_components by done.
  by rewrite (start_same_path fs p q Hpq), (proj2 Hpq).
Qed.


Lemma makedirs_unobstructed fs p :
  (∃ fs', makedirs fs p = Done fs') ↔ unobstructed fs p = true.
Proof.
  unfold makedirs, unobstructed. case_bool_decide; simpl.
  - split; [by intros [??]|done].
  - apply mkchain_clear.
Qed.

Lemma makedirs_isdir fs p fs' :
  makedirs fs p = Done fs' → isdir fs' p = true.
Proof.
  unfold makedirs, isdir, resolve. case_bool_decide; [done|]. intros Hmk.
  pose proof (mkchain_mono _ _ _ _ Hmk) as [Hcwd _].
  apply mkchain_walk in Hmk as (k & Hw & Hk); [|apply lookup_start].
  apply bool_decide_eq_true. unfold start in *. rewrite Hcwd, Hw. done.
Qed.

Lemma makedirs_mono fs p fs' k n :
  makedirs fs p = Done fs' → lookup_node fs k = Some n → lookup_node fs' k = Some n.
Proof.
  unfold makedirs. case_bool_decide; [done|]. intros Hmk.
  by apply (mkchain_mono _ _ _ _ Hmk).
Qed.

(** When [join(d, b)] exists, [os.makedirs(d)] finds its chain in place. *)
Lemma makedirs_noop fs d b :
  d ≠ "" → has_char sep b = false →
  exists_ fs (join_step d b) = true → makedirs fs d = Done fs.
Proof.
  intros Hd Hb. rewrite join_step_prefix by by apply startswith_sep_free.
  unfold exists_, resolve, makedirs. rewrite (bool_decide_eq_false_2 (d = "")) by done.
  intros [n Hres]%bool_decide_eq_true. revert Hres.
  case_bool_decide as Hnil.
  { by apply app_eq_nil_str in Hnil as [?%dir_prefix_nil _]. }
  intros Hres.
  assert (start fs (dir_prefix d ++ b) = start fs d) as Hstart.
  { unfold start. rewrite isabs_app by by rewrite dir_prefix_nil.
    by rewrite dir_prefix_isabs. }
  rewrite Hstart in Hres.
  destruct (walk fs (start fs d) (split sep (dir_prefix d ++ b))) as [k'|] eqn:Hw; [|done].
  destruct (dir_prefix_split d b Hb) as [Hs|[[? _]|(d' & Hd' & Hs)]]; [|done|].
  - rewrite Hs in Hw. apply walk_snoc_inv in Hw as (k & Hw & Hk).
    assert (walk fs (start fs d) (components d) ≫= lookup_node fs = Some Dir) as Hdir.
    { rewrite <- dir_prefix_components, components_unfold.
      apply (proj1 (walk_dir_filter _ _ _)). by rewrite Hw. }
    rewrite components_unfold in Hdir. apply (proj2 (walk_dir_filter _ _ _)) in Hdir.
    destruct (walk fs (start fs d) (split sep d)) as [k0|] eqn:Hw0; [|done].
    by apply (mkchain_noop _ _ _ k0).
  - rewrite Hs in Hw. apply walk_snoc_inv in Hw as (k & Hw & Hk).
    assert (walk fs (start fs d) (components d) ≫= lookup_node fs = Some Dir) as Hdir.
    { rewrite <- dir_prefix_components, Hd'.
      change (d' ++ String sep "")%string with (d' ++ "/" ++ "")%string.
      rewrite components_app_slash, components_nil, app_nil_r, components_unfold.
      apply (proj1 (walk_dir_filter _ _ _)). by rewrite Hw. }
    rewrite components_unfold in Hdir. apply (proj2 (walk_dir_filter _ _ _)) in Hdir.
    destruct (walk fs (start fs d) (split sep d)) as [k0|] eqn:Hw0; [|done].
    by apply (mkchain_noop _ _ _ k0).
Qed.

Lemma isdir_exists fs p : isdir fs p = true → exists_ fs p = true.
Proof.
  unfold isdir, exists_. intros ->%bool_decide_eq_true. by apply bool_decide_eq_true.
Qed.

Lemma join_step_not_nil d b : d ≠ "" → join_step d b ≠ "".
Proof.
  intros Hd. unfold join_step.
  destruct (startswith b "/") eqn:Hb; [by destruct b|].
  destruct (bool_decide (d = "") || endswith_char d sep); by destruct d.
Qed.

Lemma join_not_nil d l : d ≠ "" → join d l ≠ "".
Proof.
  unfold join. revert d. induction l as [|b l IH]; intros d Hd; [done|].
  simpl. by apply IH, join_step_not_nil.
Qed.

(** When something exists below [d], at the end of names joined to it,
    [os.makedirs(d)] finds [d] in place. *)
Lemma makedirs_noop_join fs d l :
  d ≠ "" → l ≠ [] → Forall (λ x, has_char sep x = false) l →
  exists_ fs (join d l) = true → makedirs fs d = Done fs.
Proof.
  intros Hd. induction l as [|b l IH] using rev_ind; [done|].
  intros _ [Hl Hb]%Forall_app. inversion_clear Hb as [|?? Hb' _].
  rewrite join_snoc. intros Hex.
  pose proof (makedirs_noop fs (join d l) b (join_not_nil d l Hd) Hb' Hex) as Hmk.
  destruct l as [|b0 l]; [done|].
  apply IH; [done|done|]. by apply isdir_exists, (makedirs_isdir fs).
Qed.

End FSFacts.

(** ** The path mapper *)

Section PathMapper.
Context {lib : Library}.
Import PyStr PosixPath PyStrFacts PathFacts FS FSFacts.

Lemma world_eta w : {| fs := fs w; trace := trace w |} = w.
Proof. by destruct w. Qed.

Lemma os_makedirs_ok w p fs' :
  makedirs (fs w) p = Done fs' →
  os_makedirs p w = (Ok tt, {| fs := fs'; trace := trace w |}).
Proof. intros Hmk. unfold os_makedirs. by rewrite Hmk. Qed.

(** What [create_directory_structure] does on a URL whose stripped path is
    [init ++ [filename]]. *)
Lemma create_directory_structure_run url base_dir source_name parsed init filename w fs' :
  urlparse url = Ok parsed →
  path_parts_of parsed = init ++ [filename] →
  makedirs (fs w) (join base_dir (source_name :: init)) = Done fs' →
  create_directory_structure url base_dir source_name w =
    (Ok (join_step (join base_dir (source_name :: init)) filename),
     {| fs := fs'; trace := trace w |}).
Proof.
  intros Hparse Hparts Hmk.
  unfold create_directory_structure, bind, lift. rewrite Hparse, Hparts.
  rewrite removelast_last, (os_makedirs_ok _ _ _ Hmk).
  unfold index_last. by rewrite last_snoc.
Qed.


(** C9, as the code has it.  For a URL whose path component is empty,
    [create_directory_structure] signals no error of its own: it creates
    [outputRoot/sourceIdentifier] and returns that directory joined with an
    empty file name. *)
Theorem create_directory_structure_pathless url base_dir source_name parsed w :
  urlparse url = Ok parsed →
  path parsed = "" →
  unobstructed (fs w) (join base_dir [source_name]) = true →
  ∃ w',
    create_directory_structure url base_dir source_name w =
      (Ok (join base_dir [source_name; ""]), w') ∧
    isdir (fs w') (join base_dir [source_name]) = true ∧
    trace w' = trace w.
Proof.
  intros Hparse Hpath Hclear.
  apply makedirs_unobstructed in Hclear as [fs' Hmk].
  exists {| fs := fs'; trace := trace w |}. split; [|split; [|done]].
  - rewrite (create_directory_structure_run url base_dir source_name parsed [] "" w fs');
      try done.
    unfold path_parts_of. by rewrite Hpath.
  - by apply (makedirs_isdir (fs w)).
Qed.

End PathMapper.

(** ** The substring filter *)

Module FilterFacts.
Import PyStr PyStrFacts.

Lemma prefix_spec sub s :
  String.prefix sub s = true ↔ ∃ b, s = (sub ++ b)%string.
Proof.
  revert s. induction sub as [|x sub IH]; intros s.
  - rewrite str_prefix_nil. split; [by exists s|done].
  - destruct s as [|y s].
    + split; [done|]. by intros [b ?].
    + change (String.prefix (String x sub) (String y s))
        with (if ascii_dec x y then String.prefix sub s else false).
      destruct (ascii_dec x y) as [->|Hne].
      * rewrite IH. split; intros [b Hb]; exists b; simpl in *; congruence.
      * split; [done|]. intros [b Hb]. simpl in Hb. congruence.
Qed.

(** [sub in s] holds exactly when [sub] occurs in [s] as a literal substring. *)
Lemma contains_spec sub s :
  contains sub s = true ↔ ∃ a b, s = (a ++ sub ++ b)%string.
Proof.
  induction s as [|y s IH].
  - simpl. rewrite orb_false_r, prefix_spec. split.
    + intros [b Hb]. by exists "", b.
    + intros (a & b & Hab). destruct a; [by exists b|done].
  - change (contains sub (String y s))
      with (String.prefix sub (String y s) || contains sub s).
    rewrite orb_true_iff, prefix_spec, IH. split.
    + intros [[b Hb]|(a & b & Hab)].
      * by exists "", b.
      * exists (String y a), b. simpl. by rewrite Hab.
    + intros (a & b & Hab). destruct a as [|x a].
      * left. by exists b.
      * right. exists a, b. simpl in Hab. congruence.
Qed.

End FilterFacts.

Section Filter.
Context {lib : Library}.
Import PyStr FilterFacts.

Lemma elem_of_add_all source_name matches urls (e : link) :
  e ∈ add_all source_name matches urls ↔
  e ∈ urls ∨ ∃ url, url ∈ matches ∧ e = (url, source_name).
Proof.
  unfold add_all. revert urls. induction matches as [|m matches IH]; intros urls; simpl.
  - split; [by left|]. intros [?|(url & Hin & _)]; [done|]. by apply elem_of_nil in Hin.
  - rewrite IH, elem_of_union, elem_of_singleton. setoid_rewrite elem_of_cons.
    naive_solver.
Qed.

(** C4.  A non-empty filter keeps a sub-list of the extracted matches: a URL
    is kept exactly when it was extracted and holds the filter string as a
    literal substring; nothing outside the unfiltered extraction appears,
    neither in the list nor in the resulting set of links. *)
Theorem filter_keeps_matching_subset (f : string) (matches : list string) (source_name : string) :
  f ≠ "" →
  apply_filter (Some f) matches `sublist_of` matches ∧
  (∀ url, url ∈ apply_filter (Some f) matches ↔
          url ∈ matches ∧ ∃ a b, url = (a ++ f ++ b)%string) ∧
  add_all source_name (apply_filter (Some f) matches) ∅ ⊆ add_all source_name matches ∅.
Proof.
  intros Hf. unfold apply_filter, truthy. rewrite bool_decide_eq_false_2 by done. simpl.
  assert (∀ url, url ∈ filter (λ url, contains f url = true) matches ↔
                 url ∈ matches ∧ ∃ a b, url = (a ++ f ++ b)%string) as Hmem.
  { intros url. rewrite list_elem_of_filter, contains_spec. tauto. }
  split; [apply sublist_filter|]. split; [done|].
  intros e. rewrite !elem_of_add_all.
  intros [?|(url & Hin & ->)]; [by left|]. right. exists url. split; [|done].
  by apply Hmem in Hin as [? _].
Qed.

End Filter.

(** ** The index fetcher and the aggregator *)

Section Fetch.
Context {lib : Library}.
Import PyStr.

Ltac run := unfold bind, ret, raise, lift, try_except.

(** What one fetch does: one request, then a set of links; never an
    exception. *)
Lemma fetch_urls_from_source_run name cfg flt follow w :
  fetch_urls_from_source name cfg flt follow w =
    (Ok match server (trace w) (index_request cfg follow) with
        | Ok r =>
            if bool_decide (error_status r) then ∅
            else match re_findall (sc_pattern cfg) (text r) with
                 | Ok matches => add_all name (apply_filter flt matches) ∅
                 | Raise _ => ∅
                 end
        | Raise _ => ∅
        end,
     after_request w (index_request cfg follow)).
Proof.
  unfold fetch_urls_from_source, requests_get, raise_for_status, after_request,
    index_request, error_status. run. simpl.
  destruct (server _ _) as [r|e]; simpl.
  - case_bool_decide; simpl; [done|].
    destruct (re_findall _ _) as [ms|e]; simpl; [done|].
    by destruct (is_RequestException e).
  - by destruct (is_RequestException e).
Qed.

Lemma fetch_urls_from_source_total name cfg flt follow w :
  ∃ urls, fetch_urls_from_source name cfg flt follow w =
            (Ok urls, after_request w (index_request cfg follow)).
Proof. rewrite fetch_urls_from_source_run. eauto. Qed.

Lemma fetch_all_loop_total sources flt follow acc w :
  ∃ urls w', fetch_all_loop sources flt follow acc w = (Ok urls, w').
Proof.
  revert acc w. induction sources as [|name rest IH]; intros acc w; simpl.
  - by exists acc, w.
  - destruct (SOURCES !! name) as [cfg|]; [|apply IH].
    destruct (fetch_urls_from_source_total name cfg flt follow w) as [urls Hrun].
    unfold bind. rewrite Hrun. apply IH.
Qed.



(** *** Aggregation as a union *)

Lemma fetch_all_loop_union sources flt follow acc w :
  fetch_all_loop sources flt follow acc w =
    bind (union_of_fetches (registered_of sources) flt follow) (λ urls, ret (acc ∪ urls)) w.
Proof.
  revert acc w. induction sources as [|name rest IH]; intros acc w; simpl.
  - run. by rewrite (right_id_L ∅ (∪)).
  - unfold registered_of. simpl. fold (registered_of rest).
    destruct (SOURCES !! name) as [cfg|]; simpl; [|apply IH].
    destruct (fetch_urls_from_source_total name cfg flt follow w) as [urls Hrun].
    unfold bind at 1 2 3. rewrite Hrun, IH. unfold bind, ret.
    destruct (union_of_fetches _ _ _ _) as [[others|e] w']; [|done].
    by rewrite (assoc_L (∪)).
Qed.

Lemma registered_of_app l1 l2 :
  registered_of (l1 ++ l2) = registered_of l1 ++ registered_of l2.
Proof. unfold registered_of. apply omap_app. Qed.

Lemma SOURCES_names name :
  is_Some (SOURCES !! name) ↔ name = "claude-docs" ∨ name = "claude-code".
Proof.
  unfold SOURCES. rewrite !lookup_insert_is_Some', lookup_empty.
  split; [intros [?|[?|[? ?]]]|intros [->| ->]]; eauto; done.
Qed.

(** C10.  [fetch_all_urls] is the union of [fetch_urls_from_source] over the
    identifiers of the list that the registry knows ([claude-docs] and
    [claude-code]); it raises nothing, and an identifier that is not
    registered can be dropped from the list without changing anything. *)
Theorem fetch_all_urls_unions_registered sources flt follow w :
  fetch_all_urls sources flt follow w =
    union_of_fetches (registered_of sources) flt follow w ∧
  (∃ urls w', fetch_all_urls sources flt follow w = (Ok urls, w')) ∧
  (∀ name, is_Some (SOURCES !! name) ↔ name = "claude-docs" ∨ name = "claude-code") ∧
  (∀ pre name rest,
     sources = pre ++ name :: rest → SOURCES !! name = None →
     fetch_all_urls sources flt follow w = fetch_all_urls (pre ++ rest) flt follow w).
Proof.
  assert (∀ l, fetch_all_urls l flt follow w =
               union_of_fetches (registered_of l) flt follow w) as Hunion.
  { intros l. unfold fetch_all_urls. rewrite fetch_all_loop_union. unfold bind, ret.
    destruct (union_of_fetches _ _ _ _) as [[urls|e] w']; [|done].
    by rewrite (left_id_L ∅ (∪)). }
  split; [apply Hunion|]. split; [apply fetch_all_loop_total|].
  split; [apply SOURCES_names|].
  intros pre name rest -> Hnone. rewrite !Hunion, !registered_of_app.
  unfold registered_of at 2. simpl. by rewrite Hnone.
Qed.

End Fetch.

(** ** Links are pairs *)

Section Links.
Context {lib : Library}.
Import PyStr.

Lemma passes_apply_filter flt matches X :
  passes flt X → X ∈ matches → X ∈ apply_filter flt matches.
Proof.
  intros Hpass Hin. unfold apply_filter. destruct flt as [f|]; [|done].
  unfold truthy. case_bool_decide as Hf; simpl; [done|].
  apply list_elem_of_filter. split; [|done]. by apply Hpass.
Qed.

Lemma fetch_all_loop_keeps sources flt follow acc w urls w' :
  fetch_all_loop sources flt follow acc w = (Ok urls, w') → acc ⊆ urls.
Proof.
  revert acc w. induction sources as [|name rest IH]; intros acc w; simpl.
  - unfold ret. by intros [= <- _].
  - destruct (SOURCES !! name) as [cfg|]; [|apply IH].
    destruct (fetch_urls_from_source_total name cfg flt follow w) as [got Hrun].
    unfold bind. rewrite Hrun. intros Hrest%IH. set_solver.
Qed.

Lemma fetch_urls_from_source_member name cfg flt follow X w urls w' :
  SOURCES !! name = Some cfg → index_contains name follow X → passes flt X →
  fetch_urls_from_source name cfg flt follow w = (Ok urls, w') →
  (X, name) ∈ urls.
Proof.
  intros Hreg (cfg' & Hreg' & Hserved) Hpass. simplify_eq.
  destruct (Hserved (trace w)) as (r & matches & Hr & Hok & Hm & Hin).
  rewrite fetch_urls_from_source_run, Hr, Hm.
  rewrite bool_decide_eq_false_2 by done. intros [= <- _].
  apply elem_of_add_all. right. exists X. split; [|done].
  by apply passes_apply_filter.
Qed.

Lemma fetch_all_loop_member sources flt follow acc X name w urls w' :
  name ∈ sources → index_contains name follow X → passes flt X →
  fetch_all_loop sources flt follow acc w = (Ok urls, w') →
  (X, name) ∈ urls.
Proof.
  intros Hin Hserved Hpass. revert acc w.
  induction sources as [|name0 rest IH]; intros acc w; simpl.
  - by apply elem_of_nil in Hin.
  - destruct (decide (name = name0)) as [<-|Hne].
    + destruct Hserved as (cfg & Hreg & Hserved). rewrite Hreg.
      destruct (fetch_urls_from_source_total name cfg flt follow w) as [got Hrun].
      unfold bind. rewrite Hrun. intros Hrest%fetch_all_loop_keeps.
      apply Hrest, elem_of_union_r.
      eapply fetch_urls_from_source_member; eauto. by exists cfg.
    + apply elem_of_cons in Hin as [?|Hin]; [done|].
      destruct (SOURCES !! name0) as [cfg|]; [|by apply IH].
      destruct (fetch_urls_from_source_total name0 cfg flt follow w) as [got Hrun].
      unfold bind. rewrite Hrun. by apply IH.
Qed.

(** Every aggregated link carries the identifier of a registered source. *)
Lemma fetch_all_loop_registered sources flt follow acc w urls w' :
  fetch_all_loop sources flt follow acc w = (Ok urls, w') →
  ∀ u s, (u, s) ∈ urls → (u, s) ∈ acc ∨ is_Some (SOURCES !! s).
Proof.
  revert acc w. induction sources as [|name rest IH]; intros acc w; simpl.
  - unfold ret. intros [= <- _] u s ?. by left.
  - destruct (SOURCES !! name) as [cfg|] eqn:Hreg; [|apply IH].
    unfold bind. rewrite fetch_urls_from_source_run.
    intros Hrest u s Hin. destruct (IH _ _ Hrest u s Hin) as [Hacc|?]; [|by right].
    apply elem_of_union in Hacc as [?|Hgot]; [by left|]. right.
    assert (s = name) as ->; [|by rewrite Hreg].
    destruct (server _ _) as [r|e]; [|by apply not_elem_of_empty in Hgot].
    destruct (bool_decide (error_status r)); [by apply not_elem_of_empty in Hgot|].
    destruct (re_findall _ _) as [ms|e]; [|by apply not_elem_of_empty in Hgot].
    apply elem_of_add_all in Hgot as [Hgot|(url & _ & Heq)]; [|congruence].
    by apply not_elem_of_empty in Hgot.
Qed.

Lemma filter_eq_NoDup {A} `{EqDecision A} (l : list A) (x : A) :
  NoDup l → x ∈ l → filter (λ y, y = x) l = [x].
Proof.
  induction 1 as [|y l Hy Hnd IH]; [by intros ?%elem_of_nil|].
  intros [->|Hin]%elem_of_cons.
  - rewrite filter_cons_True by done. f_equal.
    clear IH Hnd. induction l as [|z l IH]; [done|].
    apply not_elem_of_cons in Hy as [Hz Hl].
    rewrite filter_cons_False by done. by apply IH.
  - rewrite filter_cons_False by (by intros ->). by apply IH.
Qed.

(** C5.  When the index documents of two sources [A] and [B] both hold the
    URL [X], aggregation yields the two links [(X, A)] and [(X, B)], which
    are distinct entries; each of them occurs exactly once, and a URL that a
    source lists again adds nothing to the set. *)
Theorem same_url_under_two_sources sources flt follow X A B w :
  A ∈ sources → B ∈ sources → A ≠ B →
  index_contains A follow X → index_contains B follow X →
  passes flt X →
  ∃ urls w',
    fetch_all_urls sources flt follow w = (Ok urls, w') ∧
    (X, A) ∈ urls ∧ (X, B) ∈ urls ∧ (X, A) ≠ (X, B) ∧
    filter (λ e, e = (X, A)) (elements urls) = [(X, A)] ∧
    filter (λ e, e = (X, B)) (elements urls) = [(X, B)] ∧
    ∀ matches, X ∈ matches → add_all A (X :: matches) ∅ = add_all A matches ∅.
Proof.
  intros HA HB Hne HXA HXB Hpass.
  destruct (fetch_all_loop_total sources flt follow ∅ w) as (urls & w' & Hrun).
  exists urls, w'.
  assert ((X, A) ∈ urls) as HinA by (by eapply fetch_all_loop_member).
  assert ((X, B) ∈ urls) as HinB by (by eapply fetch_all_loop_member).
  split; [done|]. split; [done|]. split; [done|]. split; [congruence|].
  split; [|split].
  - apply filter_eq_NoDup; [apply NoDup_elements|by apply elem_of_elements].
  - apply filter_eq_NoDup; [apply NoDup_elements|by apply elem_of_elements].
  - intros matches Hin. apply set_eq. intros e. rewrite !elem_of_add_all.
    setoid_rewrite elem_of_cons. naive_solver.
Qed.

End Links.

(** ** The order of the links *)

#[global] Instance tuple_le_total : Total tuple_le.
Proof.
  intros [u1 s1] [u2 s2]. unfold tuple_le. simpl.
  destruct (decide (u1 = u2)) as [->|Hne].
  - destruct (total String.le s1 s2); [left|right]; by right.
  - destruct (total String.le u1 u2); [left|right]; left; split; auto.
Qed.

#[global] Instance tuple_le_antisymm : AntiSymm (=) tuple_le.
Proof.
  intros [u1 s1] [u2 s2]. unfold tuple_le. simpl.
  intros [[Hne H1]|[-> H1]] [[Hne' H2]|[Heq H2]]; try congruence.
  - destruct Hne. by apply (anti_symm String.le).
  - f_equal. by apply (anti_symm String.le).
Qed.

#[global] Instance tuple_le_trans : Transitive tuple_le.
Proof.
  intros [u1 s1] [u2 s2] [u3 s3]. unfold tuple_le. simpl.
  intros [[Hne H1]|[-> H1]] [[Hne' H2]|[-> H2]].
  - left. split; [|by etrans].
    intros ->. destruct Hne. by apply (anti_symm String.le).
  - left. by split.
  - left. by split.
  - right. split; [done|by etrans].
Qed.


Lemma sorted_Permutation l : sorted l ≡ₚ l.
Proof. apply merge_sort_Permutation. Qed.


(** ** The download loop *)

Section Loop.
Context {lib : Library}.
Import PyStr PosixPath PyStrFacts PathFacts FS FSFacts.

Ltac run := unfold bind, ret, raise, lift, try_except.

(** A download sends one request, to the URL itself, with redirects
    followed, and reports failure as [False] instead of raising. *)
Lemma download_file_run url local_path w :
  ∃ ok fs',
    download_file url local_path w =
      (Ok ok, {| fs := fs'; trace := trace w ++ [EvRequest (file_request url true)] |}).
Proof.
  unfold download_file, requests_get, raise_for_status, os_makedirs, open_write,
    file_request. run. simpl.
  destruct (server _ _) as [r|e]; simpl.
  - case_bool_decide; simpl; [by eauto|].
    destruct (makedirs _ _) as [fs1|fs1]; simpl; [|by eauto].
    destruct (write_file _ _ _) as [fs2|]; simpl; by eauto.
  - destruct (is_RequestException e); by eauto.
Qed.

Lemma create_directory_structure_trace url base_dir source_name w :
  trace (create_directory_structure url base_dir source_name w).2 = trace w.
Proof.
  unfold create_directory_structure, os_makedirs, index_last. run.
  destruct (urlparse url) as [parsed|e]; simpl; [|done].
  destruct (makedirs _ _) as [fs1|fs1]; simpl; [|done].
  by destruct (last _).
Qed.

(** The three ways one round of the loop can go. *)
Lemma process_entry_cases output url source_name t w :
  match create_directory_structure url output source_name w with
  | (Raise e, w1) => process_entry output (url, source_name) t w = (Raise e, w1)
  | (Ok local_path, w1) =>
      if exists_ (fs w1) local_path
      then process_entry output (url, source_name) t w = (Ok (skip t), w1)
      else ∃ ok fs',
        process_entry output (url, source_name) t w =
          (Ok (count ok t),
           {| fs := fs'; trace := trace w ++ attempt_events url |})
  end.
Proof.
  pose proof (create_directory_structure_trace url output source_name w) as Htr.
  destruct (create_directory_structure _ _ _ _) as [[local_path|e] w1] eqn:Hcds.
  - simpl in Htr. destruct (exists_ (fs w1) local_path) eqn:Hex.
    + unfold process_entry, bind. rewrite Hcds. unfold os_path_exists. by rewrite Hex.
    + destruct (download_file_run url local_path w1) as (ok & fs' & Hrun).
      exists ok, fs'. unfold process_entry, bind. rewrite Hcds.
      unfold os_path_exists. rewrite Hex, Hrun.
      unfold time_sleep, emit, ret. simpl. rewrite Htr, <- app_assoc.
      by destruct ok.
  - unfold process_entry, bind. by rewrite Hcds.
Qed.

End Loop.

Section LoopProperties.
Context {lib : Library}.
Import PyStr PosixPath PyStrFacts PathFacts FS FSFacts.

Lemma download_loop_cons output entry rest t w :
  download_loop output (entry :: rest) t w =
    match process_entry output entry t w with
    | (Ok t', w') => download_loop output rest t' w'
    | (Raise e, w') => (Raise e, w')
    end.
Proof. done. Qed.

(** The events of a whole loop: one request and one pause per attempted
    entry, in the order of the list; the tally counts the attempts and the
    skips. *)
Lemma download_loop_events output entries t w :
  ∃ attempted,
    attempted `sublist_of` entries ∧
    trace (download_loop output entries t w).2 =
      trace w ++ flat_map (λ e : link, attempt_events e.1) attempted ∧
    match (download_loop output entries t w).1 with
    | Ok t' =>
        successful t' + failed t' = successful t + failed t + length attempted ∧
        skipped t' + length attempted = skipped t + length entries
    | Raise _ => True
    end.
Proof.
  revert t w. induction entries as [|[url src] rest IH]; intros t w.
  - exists []. simpl. rewrite app_nil_r. split; [done|]. split; [done|lia].
  - pose proof (process_entry_cases output url src t w) as Hcases.
    pose proof (create_directory_structure_trace url output src w) as Htr.
    rewrite download_loop_cons.
    destruct (create_directory_structure url output src w) as [[local_path|e] w1].
    + simpl in Htr. destruct (exists_ (fs w1) local_path).
      * rewrite Hcases. destruct (IH (skip t) w1) as (attempted & Hsub & Hev & Htally).
        exists attempted. split; [by apply sublist_cons|].
        split; [by rewrite Hev, Htr|].
        destruct (download_loop output rest (skip t) w1).1; [|done].
        simpl in *. lia.
      * destruct Hcases as (ok & fs' & ->).
        destruct (IH (count ok t) {| fs := fs'; trace := trace w ++ attempt_events url |})
          as (attempted & Hsub & Hev & Htally).
        exists ((url, src) :: attempted). split; [by apply sublist_skip|].
        split; [by rewrite Hev; simpl; rewrite <- app_assoc|].
        destruct (download_loop output rest _ _).1; [|done].
        destruct ok; simpl in *; lia.
    + rewrite Hcases. exists []. simpl. rewrite app_nil_r.
      split; [apply sublist_nil_l|]. by split.
Qed.


Lemma sleeps_attempts (attempted : list link) :
  sleeps (flat_map (λ e : link, attempt_events e.1) attempted) =
    replicate (length attempted) (1 # 2)%Q.
Proof. induction attempted as [|[url src] l IH]; [done|]. simpl. by f_equal. Qed.

(** After aggregation, all that [main] adds to the trace are the download
    attempts, made in the order of the sorted links. *)
Lemma main_events (args : Args) (w0 : World) (url_tuples : gset link) (w : World) :
  fetch_all_urls (sources_to_fetch args) (arg_filter args)
    (negb (arg_no_follow_redirects args)) w0 = (Ok url_tuples, w) →
  ∃ attempted,
    attempted `sublist_of` sorted (elements url_tuples) ∧
    trace (main args w0).2 =
      trace w ++ flat_map (λ e : link, attempt_events e.1) attempted.
Proof.
  intros Hfetch. unfold main. unfold bind at 1. rewrite Hfetch.
  case_bool_decide.
  { exists []. split; [apply sublist_nil_l|]. simpl. by rewrite app_nil_r. }
  unfold bind at 1, os_makedirs.
  destruct (makedirs (fs w) (arg_output args)) as [fs'|fs'].
  - destruct (download_loop_events (arg_output args) (sorted (elements url_tuples))
                tally0 {| fs := fs'; trace := trace w |})
      as (attempted & Hsub & Hev & _).
    exists attempted. split; [done|]. unfold bind, ret. fold tally0.
    by destruct (download_loop _ _ _ _) as [[t|e] w'].
  - exists []. split; [apply sublist_nil_l|]. simpl. by rewrite app_nil_r.
Qed.


(** C8.  In one round of the loop, an entry whose local target exists is
    skipped with no event at all, so without a pause, and any other entry is
    attempted: its request is followed by the pause of half a time unit,
    whether the download succeeded or failed.  Over the whole loop, and
    over the run of [main] after aggregation, there is one pause per
    attempt, right behind its request, and none per skip. *)
Theorem pause_follows_attempts_only output url source_name entries t w :
  match create_directory_structure url output source_name w with
  | (Raise e, w1) =>
      process_entry output (url, source_name) t w = (Raise e, w1) ∧ trace w1 = trace w
  | (Ok local_path, w1) =>
      if exists_ (fs w1) local_path
      then process_entry output (url, source_name) t w = (Ok (skip t), w1) ∧
           trace w1 = trace w
      else ∃ ok fs',
        process_entry output (url, source_name) t w =
          (Ok (count ok t),
           {| fs := fs';
              trace := trace w ++ [EvRequest (file_request url true); EvSleep (1 # 2)] |})
  end ∧
  (∃ attempted events,
    attempted `sublist_of` entries ∧
    trace (download_loop output entries t w).2 = trace w ++ events ∧
    events = flat_map (λ e : link, [EvRequest (file_request e.1 true); EvSleep (1 # 2)])
               attempted ∧
    sleeps events = replicate (length attempted) (1 # 2)%Q ∧
    match (download_loop output entries t w).1 with
    | Ok t' =>
        successful t' + failed t' = successful t + failed t + length attempted ∧
        skipped t' + length attempted = skipped t + length entries
    | Raise _ => True
    end) ∧
  ∀ args w0 (url_tuples : gset link),
    fetch_all_urls (sources_to_fetch args) (arg_filter args)
      (negb (arg_no_follow_redirects args)) w0 = (Ok url_tuples, w) →
    ∃ attempted,
      attempted `sublist_of` sorted (elements url_tuples) ∧
      trace (main args w0).2 =
        trace w ++
        flat_map (λ e : link, [EvRequest (file_request e.1 true); EvSleep (1 # 2)])
          attempted.
Proof.
  split; [|split].
  - pose proof (process_entry_cases output url source_name t w) as Hcases.
    pose proof (create_directory_structure_trace url output source_name w) as Htr.
    destruct (create_directory_structure url output source_name w) as [[local_path|e] w1];
      [|done].
    destruct (exists_ (fs w1) local_path); done.
  - destruct (download_loop_events output entries t w) as (attempted & Hsub & Hev & Ht).
    exists attempted, (flat_map (λ e : link, attempt_events e.1) attempted).
    split; [done|]. split; [done|]. split; [done|]. split; [apply sleeps_attempts|done].
  - intros args w0 url_tuples Hfetch. by apply main_events.
Qed.

(** *** Re-running *)

Lemma process_entry_skips output url source_name local_path t w :
  output ≠ "" →
  local_target url output source_name = Some local_path →
  exists_ (fs w) local_path = true →
  process_entry output (url, source_name) t w = (Ok (skip t), w).
Proof.
  intros Hout Htarget Hex. unfold local_target in Htarget.
  destruct (urlparse url) as [parsed|e] eqn:Hparse; [|done].
  destruct (last (path_parts_of parsed)) as [filename|] eqn:Hlast; [|done].
  simpl in Htarget. injection Htarget as <-.
  apply last_Some in Hlast as [init Hparts].
  assert (has_char sep filename = false) as Hfree.
  { pose proof (split_pieces_sep_free sep (strip sep (path parsed))) as Hall.
    fold (path_parts_of parsed) in Hall. rewrite Hparts in Hall.
    apply Forall_app in Hall as [_ Hall]. by inversion Hall. }
  rewrite Hparts, removelast_last in Hex.
  change (join ?d [filename]) with (join_step d filename) in Hex.
  pose proof (makedirs_noop _ _ _ (join_not_nil _ (source_name :: init) Hout) Hfree Hex)
    as Hmk.
  pose proof (process_entry_cases output url source_name t w) as Hcases.
  rewrite (create_directory_structure_run url output source_name parsed init filename
             w (fs w) Hparse Hparts Hmk), world_eta in Hcases.
  rewrite join_cons in Hcases. by rewrite Hex in Hcases.
Qed.

Lemma download_loop_all_skipped output entries t w :
  output ≠ "" →
  (∀ url source_name, (url, source_name) ∈ entries →
     ∃ local_path, local_target url output source_name = Some local_path ∧
                   exists_ (fs w) local_path = true) →
  download_loop output entries t w =
    (Ok {| successful := successful t; failed := failed t;
           skipped := skipped t + length entries |}, w).
Proof.
  intros Hout. revert t. induction entries as [|[url src] rest IH]; intros t Hall.
  - simpl. unfold ret. rewrite Nat.add_0_r. by destruct t.
  - destruct (Hall url src) as (local_path & Htarget & Hex); [left|].
    rewrite download_loop_cons, (process_entry_skips _ _ _ _ _ _ Hout Htarget Hex).
    rewrite IH by (intros ???; apply Hall; by right).
    simpl. do 2 f_equal. f_equal. lia.
Qed.

Lemma download_loop_rerun (output : string) (url_tuples : gset link) (w : World) :
  output ≠ "" →
  (∀ url source_name, (url, source_name) ∈ url_tuples →
     ∃ local_path, local_target url output source_name = Some local_path ∧
                   exists_ (fs w) local_path = true) →
  download_loop output (sorted (elements url_tuples)) tally0 w =
    (Ok {| successful := 0; failed := 0; skipped := size url_tuples |}, w).
Proof.
  intros Hout Hall. rewrite download_loop_all_skipped; [|done|].
  - simpl. do 3 f_equal. unfold sorted. by rewrite merge_sort_Permutation.
  - intros url src Hin. apply Hall.
    rewrite sorted_Permutation in Hin. by apply elem_of_elements in Hin.
Qed.

Lemma registered_name_sep_free s : is_Some (SOURCES !! s) → has_char sep s = false.
Proof. by intros [-> | ->]%SOURCES_names. Qed.

(** The output root is in place as soon as one local target below it is. *)
Lemma output_in_place output url source_name local_path w :
  output ≠ "" → is_Some (SOURCES !! source_name) →
  local_target url output source_name = Some local_path →
  exists_ (fs w) local_path = true →
  os_makedirs output w = (Ok tt, w).
Proof.
  intros Hout Hreg Htarget Hex. unfold local_target in Htarget.
  destruct (urlparse url) as [parsed|e]; [|done].
  destruct (last (path_parts_of parsed)) as [filename|] eqn:Hlast; [|done].
  simpl in Htarget. injection Htarget as <-.
  apply last_Some in Hlast as [init Hparts].
  pose proof (split_pieces_sep_free sep (strip sep (path parsed))) as Hall.
  fold (path_parts_of parsed) in Hall. rewrite Hparts in Hall.
  rewrite Hparts, removelast_last in Hex.
  change (fold_left join_step init (join_step output source_name))
    with (join output (source_name :: init)) in Hex.
  change (join_step ?d filename) with (join d [filename]) in Hex.
  unfold join in Hex. rewrite <- fold_left_app in Hex.
  rewrite (os_makedirs_ok w output (fs w)), world_eta; [done|].
  apply (makedirs_noop_join _ _ ((source_name :: init) ++ [filename])); try done.
  constructor; [by apply registered_name_sep_free|done].
Qed.

(** C2.  When the loop runs (the output root is in place, so its name is not
    empty), an entry whose local target is on disk is skipped and nothing is
    requested for it; when the local target of every aggregated link is on
    disk, the loop, and with it the run of [main], ends with no successful
    and no failed download and with every link counted as skipped, and the
    download phase leaves the world as it was. *)
Theorem rerun_skips_every_existing_target (output : string) (url_tuples : gset link)
    (w : World) :
  output ≠ "" →
  (∀ url source_name local_path t,
     local_target url output source_name = Some local_path →
     exists_ (fs w) local_path = true →
     process_entry output (url, source_name) t w = (Ok (skip t), w)) ∧
  ((∀ url source_name, (url, source_name) ∈ url_tuples →
      ∃ local_path, local_target url output source_name = Some local_path ∧
                    exists_ (fs w) local_path = true) →
   download_loop output (sorted (elements url_tuples)) tally0 w =
     (Ok {| successful := 0; failed := 0; skipped := size url_tuples |}, w) ∧
   ∀ args w0,
     arg_output args = output →
     fetch_all_urls (sources_to_fetch args) (arg_filter args)
       (negb (arg_no_follow_redirects args)) w0 = (Ok url_tuples, w) →
     url_tuples ≠ ∅ →
     main args w0 =
       (Ok (Some {| successful := 0; failed := 0; skipped := size url_tuples |}), w)).
Proof.
  intros Hout. split; [intros; by eapply process_entry_skips|].
  intros Hall. split; [by apply download_loop_rerun|].
  intros args w0 Houtput Hfetch Hne.
  unfold main, bind. rewrite Hfetch, bool_decide_eq_false_2 by done.
  apply set_choose_L in Hne as [[url src] Hin].
  destruct (Hall url src Hin) as (local_path & Htarget & Hex).
  rewrite Houtput, (output_in_place output url src local_path w); try done.
  - fold tally0. by rewrite download_loop_rerun.
  - destruct (fetch_all_loop_registered _ _ _ _ _ _ _ Hfetch url src Hin) as [Hemp|?];
      [|done]. by apply not_elem_of_empty in Hemp.
Qed.

End LoopProperties.

(** ** The requests *)

(** C6.  Both retrievals are GET requests with the fixed user-agent header
    and a timeout of 30; the index fetch obeys the caller's redirect toggle,
    but a file download always follows redirects.  The run of
    [--claude-docs --filter api --no-follow-redirects] shows it: the index
    is requested without redirect following, the file with it. *)
Theorem download_ignores_redirect_toggle :
  (∀ (lib : Library) name cfg flt follow w,
     (fetch_urls_from_source name cfg flt follow w).2 =
       after_request w
         {| req_method := "GET"; req_url := sc_url cfg; req_headers := user_agent_headers;
            req_timeout := 30; req_allow_redirects := follow |}) ∧
  (∀ (lib : Library) url local_path w,
     trace (download_file url local_path w).2 =
       trace w ++
         [EvRequest {| req_method := "GET"; req_url := url;
                       req_headers := user_agent_headers;
                       req_timeout := 30; req_allow_redirects := true |}]) ∧
  trace (@main (Sample.library Sample.two_indexes) Sample.args_no_follow Sample.world0).2 =
    [EvRequest (index_request Sample.docs_cfg false);
     EvRequest (file_request "https://docs.claude.com/en/api.md" true);
     EvSleep (1 # 2)].
Proof.
  split; [|split].
  - intros. by rewrite fetch_urls_from_source_run.
  - intros. by destruct (download_file_run url local_path w) as (ok & fs' & ->).
  - by vm_compute.
Qed.

(** ** Concrete runs *)

(** The scenario of the spec: the index text yields exactly two links, and
    one, ending in [guide.md], under the filter [guide]. *)
Example scenario_two_links :
  sorted (elements (default ∅ (match (@fetch_urls_from_source
            (Sample.library Sample.two_indexes) "claude-docs" Sample.docs_cfg None true
            Sample.world0).1 with Ok urls => Some urls | Raise _ => None end))) =
    [("https://docs.claude.com/en/api.md", "claude-docs");
     ("https://docs.claude.com/en/guide.md", "claude-docs")].
Proof. by vm_compute. Qed.

Example scenario_filter_guide :
  sorted (elements (default ∅ (match (@fetch_urls_from_source
            (Sample.library Sample.two_indexes) "claude-docs" Sample.docs_cfg (Some "guide") true
            Sample.world0).1 with Ok urls => Some urls | Raise _ => None end))) =
    [("https://docs.claude.com/en/guide.md", "claude-docs")].
Proof. by vm_compute. Qed.

Example local_path_of_a_page :
  (@create_directory_structure (Sample.library [])
     "https://docs.claude.com/en/api.md" "out" "claude-docs" Sample.world0).1 =
    Ok "out/claude-docs/en/api.md".
Proof. by vm_compute. Qed.

(** With one index answering HTTP 500 the other source is still mirrored. *)
Example run_with_one_index_down :
  (@main (Sample.library Sample.one_index_down)
     {| arg_filter := None; arg_output := "out"; arg_claude_docs := false;
        arg_claude_code := false; arg_no_follow_redirects := false |} Sample.world0).1 =
    Ok (Some {| successful := 1; failed := 1; skipped := 0 |}).
Proof. by vm_compute. Qed.


(** C9 as stated does not hold: for the pathless URL [https://docs.claude.com]
    the call returns the path [out/claude-docs/] and raises nothing. *)
Lemma pathless_url_returns_a_path :
  @urlparse (Sample.library []) "https://docs.claude.com" =
    Ok {| scheme := "https"; netloc := "docs.claude.com"; path := "" |} ∧
  (@create_directory_structure (Sample.library [])
     "https://docs.claude.com" "out" "claude-docs" Sample.world0).1 = Ok "out/claude-docs/" ∧
  ¬ ∃ e w', @create_directory_structure (Sample.library [])
              "https://docs.claude.com" "out" "claude-docs" Sample.world0 = (Raise e, w').
Proof.
  split; [by vm_compute|]. split; [by vm_compute|].
  intros (e & w' & Hrun). apply (f_equal fst) in Hrun. vm_compute in Hrun. discriminate.
Qed.

Lemma create_directory_structure_pathless_witness :
  ∃ w',
    @create_directory_structure (Sample.library [])
      "https://docs.claude.com" "out" "claude-docs" Sample.world0 =
      (Ok (PosixPath.join "out" ["claude-docs"; ""]), w') ∧
    FS.isdir (fs w') (PosixPath.join "out" ["claude-docs"]) = true ∧
    trace w' = [].
Proof.
  apply (create_directory_structure_pathless (lib := Sample.library [])
           "https://docs.claude.com" "out" "claude-docs"
           {| scheme := "https"; netloc := "docs.claude.com"; path := "" |}
           Sample.world0).
  - reflexivity.
  - reflexivity.
  - vm_compute. reflexivity.
Defined.

Lemma rerun_skips_every_existing_target_witness :
  @download_loop (Sample.library Sample.two_indexes) "out"
    (sorted (elements ({[ ("https://docs.claude.com/en/api.md", "claude-docs") ]} : gset link)))
    tally0 Sample.mirrored_world_indexed =
  (Ok {| successful := 0; failed := 0;
         skipped := size ({[ ("https://docs.claude.com/en/api.md", "claude-docs") ]} : gset link) |},
   Sample.mirrored_world_indexed) ∧
  @main (Sample.library Sample.two_indexes) Sample.args_no_follow Sample.mirrored_world =
  (Ok (Some {| successful := 0; failed := 0;
               skipped := size ({[ ("https://docs.claude.com/en/api.md", "claude-docs") ]} : gset link) |}),
   Sample.mirrored_world_indexed).
Proof.
  pose proof (rerun_skips_every_existing_target (lib := Sample.library Sample.two_indexes)
                "out" {[ ("https://docs.claude.com/en/api.md", "claude-docs") ]}
                Sample.mirrored_world_indexed) as [_ Hrerun].
  - discriminate.
  - destruct Hrerun as [Hloop Hmain].
    + intros url source_name Hin. apply elem_of_singleton in Hin.
      injection Hin as -> ->. exists "out/claude-docs/en/api.md".
      split; vm_compute; reflexivity.
    + split; [exact Hloop|]. apply Hmain.
      * reflexivity.
      * vm_compute. reflexivity.
      * intros Hempty. apply (f_equal size) in Hempty. vm_compute in Hempty. discriminate.
Defined.


Lemma filter_keeps_matching_subset_witness :
  apply_filter (Some "guide")
    ["https://docs.claude.com/en/api.md"; "https://docs.claude.com/en/guide.md"]
    `sublist_of`
    ["https://docs.claude.com/en/api.md"; "https://docs.claude.com/en/guide.md"] ∧
  (∀ url,
     url ∈ apply_filter (Some "guide")
             ["https://docs.claude.com/en/api.md"; "https://docs.claude.com/en/guide.md"] ↔
     url ∈ ["https://docs.claude.com/en/api.md"; "https://docs.claude.com/en/guide.md"] ∧
     ∃ a b, url = (a ++ "guide" ++ b)%string) ∧
  add_all "claude-docs"
    (apply_filter (Some "guide")
       ["https://docs.claude.com/en/api.md"; "https://docs.claude.com/en/guide.md"]) ∅
    ⊆ add_all "claude-docs"
        ["https://docs.claude.com/en/api.md"; "https://docs.claude.com/en/guide.md"] ∅.
Proof.
  apply (filter_keeps_matching_subset "guide"
           ["https://docs.claude.com/en/api.md"; "https://docs.claude.com/en/guide.md"]
           "claude-docs").
  discriminate.
Defined.

Lemma same_url_under_two_sources_witness :
  ∃ urls w',
    @fetch_all_urls (Sample.library Sample.two_indexes)
      ["claude-docs"; "claude-code"] (Some "api") true Sample.world0 = (Ok urls, w') ∧
    ("https://docs.claude.com/en/api.md", "claude-docs") ∈ urls ∧
    ("https://docs.claude.com/en/api.md", "claude-code") ∈ urls ∧
    ("https://docs.claude.com/en/api.md", "claude-docs") ≠
      ("https://docs.claude.com/en/api.md", "claude-code") ∧
    filter (λ e, e = ("https://docs.claude.com/en/api.md", "claude-docs")) (elements urls) =
      [("https://docs.claude.com/en/api.md", "claude-docs")] ∧
    filter (λ e, e = ("https://docs.claude.com/en/api.md", "claude-code")) (elements urls) =
      [("https://docs.claude.com/en/api.md", "claude-code")] ∧
    ∀ matches, "https://docs.claude.com/en/api.md" ∈ matches →
      add_all "claude-docs" ("https://docs.claude.com/en/api.md" :: matches) ∅ =
      add_all "claude-docs" matches ∅.
Proof.
  apply (same_url_under_two_sources (lib := Sample.library Sample.two_indexes)).
  - left.
  - right. left.
  - discriminate.
  - exists Sample.docs_cfg. split; [reflexivity|]. intros history.
    eexists _, _. split; [reflexivity|]. split; [unfold error_status; simpl; lia|].
    split; [vm_compute; reflexivity|]. left.
  - exists Sample.code_cfg. split; [reflexivity|]. intros history.
    eexists _, _. split; [reflexivity|]. split; [unfold error_status; simpl; lia|].
    split; [vm_compute; reflexivity|]. left.
  - intros f Hf _. injection Hf as <-. vm_compute. reflexivity.
Defined.

(** * Further properties of the script *)

(** ** More on strings and paths: [rstrip] and [os.path.dirname] *)

Module DirnameFacts.
Import PyStr PosixPath PyStrFacts PathFacts.

(** A string made of separators only. *)
Lemma lstrip_nil_components s : lstrip sep s = "" → components s = [].
Proof.
  induction s as [|a s IH]; [done|]. simpl. case_bool_decide as Ha; [|done].
  intros Hs. subst a. change (String sep s) with ("" ++ String sep s)%string.
  by rewrite components_app_sep, components_nil, IH.
Qed.

Lemma rstrip_nil c s : rstrip c s = "" ↔ lstrip c s = "".
Proof.
  induction s as [|a s IH]; [done|]. simpl.
  destruct (rstrip c s) as [|b r] eqn:E.
  - case_bool_decide; [by rewrite <- IH|]. done.
  - case_bool_decide; [|done]. split; [done|]. intros Hs. by apply IH in Hs.
Qed.

(** [rstrip] takes away a tail of separators. *)
Lemma rstrip_spec c s : ∃ t, s = (rstrip c s ++ t)%string ∧ lstrip c t = "".
Proof.
  induction s as [|a s (t & Hs & Ht)]; [by exists ""|]. simpl.
  destruct (rstrip c s) as [|b r] eqn:E.
  - case_bool_decide as Ha.
    + subst a. exists (String c s). split; [done|]. simpl.
      rewrite bool_decide_eq_true_2 by done. by apply rstrip_nil.
    + exists t. split; [|done]. simpl. by rewrite Hs at 1.
  - exists t. split; [|done]. simpl. by rewrite Hs at 1.
Qed.

Lemma components_app_seps r t :
  lstrip sep t = "" → components (r ++ t) = components r.
Proof.
  destruct t as [|a t]; [by rewrite app_nil_r_str|]. simpl.
  case_bool_decide as Ha; [|done]. subst a. intros Ht.
  by rewrite components_app_sep, (lstrip_nil_components t Ht), app_nil_r.
Qed.

Lemma rstrip_components s : components (rstrip sep s) = components s.
Proof.
  destruct (rstrip_spec sep s) as (t & Hs & Ht).
  rewrite Hs at 2. by rewrite components_app_seps.
Qed.

Lemma rstrip_isabs s : rstrip sep s ≠ "" → isabs (rstrip sep s) = isabs s.
Proof.
  intros Hne. destruct (rstrip_spec sep s) as (t & Hs & Ht).
  rewrite Hs at 2. by rewrite isabs_app.
Qed.

Lemma rstrip_same_path s : rstrip sep s ≠ "" → same_path (rstrip sep s) s.
Proof. intros Hne. split; [by apply rstrip_isabs|apply rstrip_components]. Qed.

(** A path with a separator ends in a name behind its last separator. *)
Lemma split_at_last_sep p :
  has_char sep p = true →
  ∃ h f, p = (h ++ "/" ++ f)%string ∧ has_char sep f = false.
Proof.
  induction p as [|a p IH]; [done|]. simpl.
  destruct (has_char sep p) eqn:Hp.
  - intros _. destruct (IH eq_refl) as (h & f & -> & Hf). by exists (String a h), f.
  - rewrite orb_false_r. intros ->%bool_decide_eq_true. by exists "", p.
Qed.

Lemma head_of_sep_free p : has_char sep p = false → head_of p = "".
Proof. destruct p as [|a p]; [done|]. simpl. by intros ->. Qed.

Lemma head_of_app h f :
  has_char sep f = false → head_of (h ++ "/" ++ f) = (h ++ "/")%string.
Proof.
  intros Hf. induction h as [|a h IH].
  - change ("" ++ "/" ++ f)%string with (String sep f). simpl.
    by rewrite (head_of_sep_free f Hf).
  - change (head_of (String a h ++ "/" ++ f))
      with (if has_char sep (String a (h ++ "/" ++ f))
            then String a (head_of (h ++ "/" ++ f)) else EmptyString).
    replace (has_char sep (String a (h ++ "/" ++ f))) with true; [by rewrite IH|].
    symmetry. simpl. rewrite has_char_app.
    change ("/" ++ f)%string with (String sep f). simpl.
    by rewrite !orb_true_r.
Qed.

(** [dirname] of a bare file name is empty. *)
Lemma dirname_sep_free p : has_char sep p = false → dirname p = "".
Proof. intros Hp. unfold dirname. by rewrite (head_of_sep_free p Hp). Qed.

(** [dirname] of [h/f] spells the directory [h/]. *)
Lemma dirname_app h f :
  has_char sep f = false →
  dirname (h ++ "/" ++ f) ≠ "" ∧ same_path (dirname (h ++ "/" ++ f)) (h ++ "/").
Proof.
  intros Hf. unfold dirname. rewrite (head_of_app h f Hf). simpl.
  case_bool_decide as Hall.
  - split; [by intros [_ ?]%app_eq_nil_str|done].
  - assert (rstrip sep (h ++ "/") ≠ "") as Hne by by rewrite rstrip_nil.
    split; [done|]. by apply rstrip_same_path.
Qed.

Lemma components_dir h : components (h ++ "/") = components h.
Proof.
  change (h ++ "/")%string with (h ++ "/" ++ "")%string.
  by rewrite components_app_slash, components_nil, app_nil_r.
Qed.

End DirnameFacts.

(** ** More on the file system: growth, writing and reading back *)

Module FSMore.
Import PyStr PosixPath PyStrFacts PathFacts DirnameFacts FS FSFacts.

Lemma lookup_set_node_ne fs k0 n k :
  k ≠ k0 → lookup_node (set_node fs k0 n) k = lookup_node fs k.
Proof.
  intros Hne. unfold lookup_node, set_node. simpl.
  destruct (bool_decide (k `prefix_of` cwd fs)); [done|]. by rewrite lookup_insert_ne.
Qed.

Lemma lookup_set_node_eq fs k0 n :
  lookup_node fs k0 ≠ Some Dir → lookup_node (set_node fs k0 n) k0 = Some n.
Proof.
  unfold lookup_node, set_node. simpl.
  destruct (bool_decide (k0 `prefix_of` cwd fs)); [done|]. by rewrite lookup_insert_eq.
Qed.

(** [os.makedirs], whether it completes or stops half way, only adds
    directories where nothing was. *)
Lemma mkchain_grows fs cur names k :
  lookup_node (outcome_fs (mkchain fs cur names)) k = lookup_node fs k ∨
  (lookup_node fs k = None ∧
   lookup_node (outcome_fs (mkchain fs cur names)) k = Some Dir).
Proof.
  revert fs cur. induction names as [|c rest IH]; intros fs cur; simpl.
  - destruct (is_file fs cur); by left.
  - destruct (is_file fs cur); [by left|].
    destruct (lookup_node fs (step cur c)) eqn:E; [apply IH|].
    destruct (IH (set_node fs (step cur c) Dir) (step cur c)) as [Heq|[Hnone Hdir]].
    + rewrite Heq, lookup_set_dir by done.
      destruct (decide (k = step cur c)) as [->|]; [right|left]; done.
    + right. split; [|done]. rewrite lookup_set_dir in Hnone by done.
      by destruct (decide (k = step cur c)).
Qed.

Lemma makedirs_grows fs p k :
  lookup_node (outcome_fs (makedirs fs p)) k = lookup_node fs k ∨
  (lookup_node fs k = None ∧ lookup_node (outcome_fs (makedirs fs p)) k = Some Dir).
Proof.
  unfold makedirs. case_bool_decide; [by left|]. apply mkchain_grows.
Qed.

Lemma makedirs_keeps fs p k n :
  lookup_node fs k = Some n → lookup_node (outcome_fs (makedirs fs p)) k = Some n.
Proof.
  intros Hk. destruct (makedirs_grows fs p k) as [->|[Hnone _]]; [done|congruence].
Qed.

(** A directory that is there needs no making. *)
Lemma isdir_makedirs fs p : isdir fs p = true → makedirs fs p = Done fs.
Proof.
  unfold isdir, resolve, makedirs. intros Hdir%bool_decide_eq_true. revert Hdir.
  case_bool_decide; [done|].
  destruct (walk fs (start fs p) (split sep p)) as [k|] eqn:Hw; [|done].
  simpl. intros Hk. by apply (mkchain_noop _ _ _ k).
Qed.

(** Writing a file does not move the directories a path walks through. *)
Lemma walk_set_file fs k0 content cur names k :
  lookup_node fs k0 ≠ Some Dir →
  walk fs cur names = Some k →
  walk (set_node fs k0 (File content)) cur names = Some k.
Proof.
  intros Hk0. revert cur. induction names as [|c rest IH]; intros cur; simpl; [done|].
  destruct (lookup_node fs cur) as [[|?]|] eqn:E; [|done..].
  rewrite lookup_set_node_ne by congruence. rewrite E. apply IH.
Qed.

Lemma step_plain cur name : plain_name name → step cur name = cur ++ [name].
Proof.
  intros (H1 & H2 & H3). unfold step.
  by rewrite !bool_decide_eq_false_2 by done.
Qed.

(** What a successful [open(p, 'w')] did. *)
Lemma write_file_inv fs p content fs' :
  write_file fs p content = Some fs' →
  ∃ parent name,
    p ≠ "" ∧ split sep p = removelast (split sep p) ++ [name] ∧ plain_name name ∧
    walk fs (start fs p) (removelast (split sep p)) = Some parent ∧
    lookup_node fs parent = Some Dir ∧
    lookup_node fs (parent ++ [name]) ≠ Some Dir ∧
    fs' = set_node fs (parent ++ [name]) (File content).
Proof.
  unfold write_file. case_bool_decide as Hp; [done|].
  destruct (last (split sep p)) as [name|] eqn:Hlast; [|done].
  destruct (walk fs (start fs p) (removelast (split sep p))) as [parent|] eqn:Hw; [|done].
  destruct (bool_decide (name = "") || bool_decide (name = ".") || bool_decide (name = ".."))
    eqn:Hname; [done|].
  apply orb_false_iff in Hname as [[H1 H2]%orb_false_iff H3].
  apply bool_decide_eq_false in H1, H2, H3.
  destruct (lookup_node fs parent) as [[|?]|] eqn:Hparent; [|done..].
  intros Hfs'. exists parent, name. split; [done|]. split.
  { apply last_Some in Hlast as [l Hl]. rewrite Hl at 1. by rewrite Hl, removelast_last. }
  split; [done|]. split; [done|]. split; [done|].
  destruct (lookup_node fs (parent ++ [name])) as [[|?]|]; by simplify_eq.
Qed.

(** Round trip: what was written is what is read. *)
Lemma write_file_read fs p content fs' :
  write_file fs p content = Some fs' → read_file fs' p = Some content.
Proof.
  intros (parent & name & Hp & Hsplit & Hplain & Hw & Hparent & Htarget & ->)%write_file_inv.
  unfold read_file, resolve. rewrite bool_decide_eq_false_2 by done.
  rewrite Hsplit, walk_app.
  change (start (set_node fs (parent ++ [name]) (File content)) p) with (start fs p).
  rewrite (walk_set_file _ _ _ _ _ _ Htarget Hw). simpl.
  rewrite lookup_set_node_ne, Hparent by (by intros ?%(f_equal length); simpl in *;
    rewrite length_app in *; simpl in *; lia).
  simpl. rewrite step_plain by done. by rewrite lookup_set_node_eq.
Qed.

(** Elsewhere nothing changes. *)
Lemma write_file_elsewhere fs p content fs' k n :
  write_file fs p content = Some fs' →
  lookup_node fs k = Some n → lookup_node fs' k = Some n ∨
  (∃ old, n = File old ∧ read_file fs p = Some old).
Proof.
  intros Hwrite Hk.
  pose proof Hwrite as (parent & name & Hp & Hsplit & Hplain & Hw & Hparent & Htarget & ->)%write_file_inv.
  destruct (decide (k = parent ++ [name])) as [->|Hne].
  - right. destruct n as [|old]; [done|]. exists old. split; [done|].
    unfold read_file, resolve. rewrite bool_decide_eq_false_2 by done.
    rewrite Hsplit, walk_app, Hw. simpl. rewrite Hparent. simpl.
    rewrite step_plain by done. by rewrite Hk.
  - left. by rewrite lookup_set_node_ne.
Qed.

(** The walk of [h/f]: the directory [h/], then the name [f]. *)
Lemma resolve_slash fs h f :
  has_char sep f = false →
  isdir fs (h ++ "/") = true →
  ∃ parent,
    split sep (h ++ "/" ++ f) = split sep h ++ [f] ∧
    walk fs (start fs (h ++ "/" ++ f)) (split sep h) = Some parent ∧
    lookup_node fs parent = Some Dir.
Proof.
  intros Hf Hdir. rewrite split_app_slash, (split_sep_free sep f Hf).
  apply isdir_components in Hdir; [|by intros [_ ?]%app_eq_nil_str].
  rewrite components_dir, components_unfold in Hdir.
  apply (proj2 (walk_dir_filter _ _ _)) in Hdir.
  assert (start fs (h ++ "/" ++ f) = start fs (h ++ "/")) as ->.
  { unfold start. rewrite <- (app_assoc_str h "/" f).
    by rewrite isabs_app by (by intros [_ ?]%app_eq_nil_str). }
  destruct (walk fs (start fs (h ++ "/")) (split sep h)) as [parent|]; [|done].
  by exists parent.
Qed.

(** [open(p, 'w')] succeeds when the directory of [p] is there, the last
    name of [p] is a plain name and [p] is not a directory. *)
Lemma write_file_ok fs h f content :
  has_char sep f = false → plain_name f →
  isdir fs (h ++ "/") = true → isdir fs (h ++ "/" ++ f) = false →
  is_Some (write_file fs (h ++ "/" ++ f) content).
Proof.
  intros Hf Hplain Hdir Hnot.
  destruct (resolve_slash fs h f Hf Hdir) as (parent & Hsplit & Hw & Hparent).
  assert ((h ++ "/" ++ f)%string ≠ "") as Hp by (by destruct h).
  unfold write_file. rewrite bool_decide_eq_false_2 by done.
  rewrite Hsplit, last_snoc, removelast_last, Hw.
  destruct Hplain as (H1 & H2 & H3). rewrite !bool_decide_eq_false_2 by done. simpl.
  rewrite Hparent.
  destruct (lookup_node fs (parent ++ [f])) as [[|?]|] eqn:Htarget; [|done..].
  exfalso. apply bool_decide_eq_false in Hnot. apply Hnot.
  unfold resolve. rewrite bool_decide_eq_false_2 by done.
  rewrite Hsplit, walk_app, Hw. simpl. rewrite Hparent. simpl.
  by rewrite step_plain.
Qed.

(** [open(p, 'w')] fails on a directory. *)
Lemma write_file_isdir fs p content :
  isdir fs p = true → write_file fs p content = None.
Proof.
  intros Hdir. destruct (write_file fs p content) as [fs'|] eqn:Hwrite; [|done].
  exfalso.
  apply write_file_inv in Hwrite
    as (parent & name & Hp & Hsplit & Hplain & Hw & Hparent & Htarget & _).
  apply bool_decide_eq_true in Hdir. unfold resolve in Hdir.
  rewrite bool_decide_eq_false_2 in Hdir by done.
  rewrite Hsplit, walk_app, Hw in Hdir. simpl in Hdir. rewrite Hparent in Hdir.
  simpl in Hdir. by rewrite step_plain in Hdir.
Qed.

End FSMore.

(** ** The file downloader *)

Section Downloader.
Context {lib : Library}.
Import PyStr PosixPath PyStrFacts PathFacts DirnameFacts FS FSFacts FSMore.

Ltac run := unfold bind, ret, raise, lift, try_except.

(** [download_file], case by case. *)
Lemma download_file_unfold url local_path w :
  download_file url local_path w =
    match server (trace w) (file_request url true) with
    | Raise _ => (Ok false, after_request w (file_request url true))
    | Ok r =>
        if bool_decide (error_status r)
        then (Ok false, after_request w (file_request url true))
        else
          let fs1 := outcome_fs (makedirs (fs w) (dirname local_path)) in
          let tr := trace w ++ [EvRequest (file_request url true)] in
          match makedirs (fs w) (dirname local_path) with
          | Failed _ => (Ok false, {| fs := fs1; trace := tr |})
          | Done _ =>
              match write_file fs1 local_path (text r) with
              | Some fs2 => (Ok true, {| fs := fs2; trace := tr |})
              | None => (Ok false, {| fs := fs1; trace := tr |})
              end
          end
    end.
Proof.
  unfold download_file, requests_get, raise_for_status, os_makedirs, open_write,
    file_request, after_request, error_status. run. simpl.
  destruct (server _ _) as [r|e]; simpl; [|by destruct (is_RequestException e)].
  case_bool_decide; simpl; [done|].
  destruct (makedirs _ _) as [fs1|fs1]; simpl; [|done].
  by destruct (write_file _ _ _).
Qed.

Lemma isdir_dirname fs p :
  has_char sep p = true → isdir fs p = true → isdir fs (dirname p) = true.
Proof.
  intros (h & f & -> & Hf)%split_at_last_sep Hdir.
  destruct (dirname_app h f Hf) as [Hne Hsame].
  rewrite (isdir_same_path _ _ _ Hsame).
  apply isdir_components; [by intros [_ ?]%app_eq_nil_str|].
  rewrite components_dir, components_unfold. apply (proj1 (walk_dir_filter _ _ _)).
  apply bool_decide_eq_true in Hdir. unfold resolve in Hdir.
  rewrite bool_decide_eq_false_2 in Hdir by (by destruct h).
  rewrite split_app_slash, (split_sep_free sep f Hf) in Hdir.
  destruct (walk fs _ (split sep h ++ [f])) as [k'|] eqn:Hw; [|done].
  apply walk_snoc_inv in Hw as (k & Hw & Hk).
  assert (start fs (h ++ "/") = start fs (h ++ "/" ++ f)) as ->.
  { unfold start. rewrite <- (app_assoc_str h "/" f).
    by rewrite (isabs_app (h ++ "/")) by (by intros [_ ?]%app_eq_nil_str). }
  by rewrite Hw.
Qed.

(** X1.  A download whose retrieval fails, with a network error or an error
    status, returns [False] after its one request and leaves the file system
    as it was: no directory is made, no file is written. *)
Theorem failed_download_touches_nothing url local_path w :
  file_fetch_fails url w →
  download_file url local_path w = (Ok false, after_request w (file_request url true)).
Proof.
  intros Hfail. rewrite download_file_unfold. unfold file_fetch_fails in Hfail.
  destruct (server _ _) as [r|e]; [|done]. by rewrite bool_decide_eq_true_2.
Qed.

(** X2.  A local path without a directory part can never be downloaded to:
    [os.path.dirname] is empty, [os.makedirs('')] raises, and [download_file]
    returns [False] with nothing written, whatever the server answers. *)
Theorem download_needs_a_directory_part url local_path w :
  has_char sep local_path = false →
  download_file url local_path w = (Ok false, after_request w (file_request url true)).
Proof.
  intros Hbare. rewrite download_file_unfold, (dirname_sep_free _ Hbare).
  destruct (server _ _) as [r|e]; [|done]. by case_bool_decide.
Qed.


(** X4.  Downloading to a path that is a directory fails: [download_file]
    returns [False] after its request and changes nothing on disk. *)
Theorem download_onto_a_directory_fails url local_path w :
  isdir (fs w) local_path = true →
  download_file url local_path w = (Ok false, after_request w (file_request url true)).
Proof.
  intros Hdir. rewrite download_file_unfold.
  destruct (server _ _) as [r|e]; [|done]. case_bool_decide; [done|].
  destruct (has_char sep local_path) eqn:Hsep.
  - rewrite (isdir_makedirs _ _ (isdir_dirname _ _ Hsep Hdir)). simpl.
    by rewrite write_file_isdir.
  - by rewrite (dirname_sep_free _ Hsep).
Qed.

End Downloader.

(** ** The path mapper, again *)

Section PathMapperMore.
Context {lib : Library}.
Import PyStr PosixPath PyStrFacts PathFacts DirnameFacts FS FSFacts FSMore.

Ltac run := unfold bind, ret, raise, lift, try_except.

Lemma last_split_is_Some c s : is_Some (last (split c s)).
Proof.
  destruct (split c s) as [|w ws] eqn:E; [by destruct (split_not_nil c s)|].
  rewrite last_is_Some. done.
Qed.

(** [create_directory_structure], case by case: [path_parts[-1]] never
    raises, since [split] never returns the empty list. *)
Lemma create_directory_structure_unfold url base_dir source_name w :
  create_directory_structure url base_dir source_name w =
    match urlparse url with
    | Raise e => (Raise e, w)
    | Ok parsed =>
        let dir_path := join base_dir (source_name :: removelast (path_parts_of parsed)) in
        let w1 := {| fs := outcome_fs (makedirs (fs w) dir_path); trace := trace w |} in
        match makedirs (fs w) dir_path with
        | Failed _ => (Raise (OSError "makedirs"), w1)
        | Done _ =>
            (Ok (join dir_path [default "" (last (path_parts_of parsed))]), w1)
        end
    end.
Proof.
  unfold create_directory_structure, os_makedirs, index_last. run.
  destruct (urlparse url) as [parsed|e]; simpl; [|done].
  destruct (makedirs _ _) as [fs1|fs1]; simpl; [|done].
  destruct (last_split_is_Some sep (strip sep (path parsed))) as [f Hf].
  unfold path_parts_of. by rewrite Hf.
Qed.

Lemma dir_prefix_slash d : d ≠ "" → ∃ d', dir_prefix d = (d' ++ "/")%string.
Proof.
  intros Hd. unfold dir_prefix. rewrite bool_decide_eq_false_2 by done. simpl.
  destruct (endswith_char d sep) eqn:Hend; [|by exists d].
  apply endswith_char_inv in Hend as [d' ->]. by exists d'.
Qed.

(** What a returned local path looks like, and what is on disk then. *)
Lemma create_directory_structure_inv url base_dir source_name w local_path w1 :
  create_directory_structure url base_dir source_name w = (Ok local_path, w1) →
  ∃ parsed h f,
    urlparse url = Ok parsed ∧
    last (path_parts_of parsed) = Some f ∧ has_char sep f = false ∧
    local_path = (h ++ "/" ++ f)%string ∧
    isdir (fs w1) (h ++ "/") = true ∧
    same_path (h ++ "/") (join base_dir (source_name :: removelast (path_parts_of parsed))) ∧
    makedirs (fs w) (join base_dir (source_name :: removelast (path_parts_of parsed)))
      = Done (fs w1) ∧
    trace w1 = trace w.
Proof.
  rewrite create_directory_structure_unfold.
  destruct (urlparse url) as [parsed|e]; [|done]. cbv zeta.
  set (d := join base_dir (source_name :: removelast (path_parts_of parsed))).
  destruct (makedirs (fs w) d) as [fs1|fs1] eqn:Hmk; [|done].
  intros [= <- <-]. simpl.
  destruct (last_split_is_Some sep (strip sep (path parsed))) as [f Hf].
  fold (path_parts_of parsed) in Hf. rewrite Hf. simpl.
  assert (has_char sep f = false) as Hfree.
  { pose proof (split_pieces_sep_free sep (strip sep (path parsed))) as Hall.
    fold (path_parts_of parsed) in Hall.
    apply last_Some in Hf as [init Hinit]. rewrite Hinit in Hall.
    apply Forall_app in Hall as [_ Hall]. by inversion Hall. }
  assert (d ≠ "") as Hd.
  { intros Hd. rewrite Hd in Hmk. done. }
  destruct (dir_prefix_slash d Hd) as [h Hh].
  exists parsed, h, f. split; [done|]. split; [done|]. split; [done|].
  split.
  { change (join d [f]) with (join_step d f).
    rewrite join_step_prefix by by apply startswith_sep_free.
    by rewrite Hh, app_assoc_str. }
  rewrite <- Hh. split; [|split; [apply dir_prefix_same_path|done]].
  rewrite (isdir_same_path _ _ d) by apply dir_prefix_same_path.
  by apply (makedirs_isdir (fs w)).
Qed.

(** X5.  [create_directory_structure] is idempotent: once it has returned a
    path, calling it again returns the same path and changes nothing. *)
Theorem create_directory_structure_idempotent url base_dir source_name w local_path w1 :
  create_directory_structure url base_dir source_name w = (Ok local_path, w1) →
  create_directory_structure url base_dir source_name w1 = (Ok local_path, w1).
Proof.
  rewrite !create_directory_structure_unfold.
  destruct (urlparse url) as [parsed|e]; [|done]. cbv zeta.
  set (d := join base_dir (source_name :: removelast (path_parts_of parsed))).
  destruct (makedirs (fs w) d) as [fs1|fs1] eqn:Hmk; [|done].
  intros [= <- <-]. simpl.
  rewrite (isdir_makedirs fs1 d) by by apply (makedirs_isdir (fs w)). done.
Qed.

(** X6.  Whether it returns or raises, [create_directory_structure] sends
    nothing and only adds directories: every entry of the file system is as
    before, or is a directory at a place where nothing was. *)
Theorem create_directory_structure_only_adds_directories url base_dir source_name w k :
  trace (create_directory_structure url base_dir source_name w).2 = trace w ∧
  (lookup_node (fs (create_directory_structure url base_dir source_name w).2) k
     = lookup_node (fs w) k ∨
   (lookup_node (fs w) k = None ∧
    lookup_node (fs (create_directory_structure url base_dir source_name w).2) k
      = Some Dir)).
Proof.
  rewrite create_directory_structure_unfold.
  destruct (urlparse url) as [parsed|e]; [|by split; [|left]]. cbv zeta.
  set (d := join base_dir (source_name :: removelast (path_parts_of parsed))).
  pose proof (makedirs_grows (fs w) d k) as Hgrow.
  by destruct (makedirs (fs w) d).
Qed.

End PathMapperMore.

(** ** The aggregator, again *)

Section AggregatorMore.
Context {lib : Library}.
Import PyStr.

Lemma fetch_all_loop_world sources flt follow acc w :
  (fetch_all_loop sources flt follow acc w).2 =
    {| fs := fs w; trace := trace w ++ index_requests (registered_of sources) follow |}.
Proof.
  revert acc w. induction sources as [|name rest IH]; intros acc w; simpl.
  - unfold index_requests. simpl. rewrite app_nil_r. by destruct w.
  - unfold registered_of. simpl. fold (registered_of rest).
    destruct (SOURCES !! name) as [cfg|]; simpl; [|apply IH].
    unfold bind. rewrite fetch_urls_from_source_run, IH. unfold after_request. simpl.
    by rewrite <- app_assoc.
Qed.

(** X7.  Aggregation never touches the file system and sends exactly one
    index request per listed identifier that is registered, in the order of
    the list (an identifier listed twice is fetched twice). *)
Theorem aggregation_sends_one_request_per_source sources flt follow w :
  fs (fetch_all_urls sources flt follow w).2 = fs w ∧
  trace (fetch_all_urls sources flt follow w).2 =
    trace w ++ map (λ entry : string * SourceConfig,
                      EvRequest (index_request entry.2 follow)) (registered_of sources).
Proof. unfold fetch_all_urls. by rewrite fetch_all_loop_world. Qed.

Lemma apply_filter_passes flt matches u :
  u ∈ apply_filter flt matches → u ∈ matches ∧ passes flt u.
Proof.
  unfold apply_filter, passes, truthy. destruct flt as [f|]; [|by intros ?; split].
  case_bool_decide as Hf; simpl.
  - subst f. intros ?. split; [done|]. by intros f [= <-] ?.
  - intros [Hc Hin]%list_elem_of_filter. split; [done|]. by intros f' [= <-] _.
Qed.

Lemma fetch_all_loop_sound sources flt follow acc w urls w' u s :
  fetch_all_loop sources flt follow acc w = (Ok urls, w') →
  (u, s) ∈ urls →
  (u, s) ∈ acc ∨ (s ∈ sources ∧ is_Some (SOURCES !! s) ∧ passes flt u).
Proof.
  revert acc w. induction sources as [|name rest IH]; intros acc w; simpl.
  - unfold ret. intros [= <- _] ?. by left.
  - destruct (SOURCES !! name) as [cfg|] eqn:Hreg.
    + unfold bind. rewrite fetch_urls_from_source_run. intros Hrest Hin.
      destruct (IH _ _ Hrest Hin) as [Hacc|(? & ? & ?)];
        [|by right; split; [right|]].
      apply elem_of_union in Hacc as [?|Hgot]; [by left|]. right.
      destruct (server _ _) as [r|e]; [|by apply not_elem_of_empty in Hgot].
      destruct (bool_decide (error_status r)); [by apply not_elem_of_empty in Hgot|].
      destruct (re_findall _ _) as [ms|e]; [|by apply not_elem_of_empty in Hgot].
      apply elem_of_add_all in Hgot as [Hgot|(url & Hurl & [= -> ->])];
        [by apply not_elem_of_empty in Hgot|].
      split; [by left|]. split; [by rewrite Hreg|].
      by apply apply_filter_passes in Hurl as [_ ?].
    + intros Hrest Hin. destruct (IH _ _ Hrest Hin) as [?|(? & ? & ?)]; [by left|].
      right. by split; [right|].
Qed.

(** X8.  Every aggregated link carries the identifier of a source that was
    asked for and is registered, and its URL holds the filter string when a
    non-empty filter was given. *)
Theorem aggregated_links_are_tagged_and_filtered sources flt follow w urls w' u s :
  fetch_all_urls sources flt follow w = (Ok urls, w') →
  (u, s) ∈ urls →
  s ∈ sources ∧ is_Some (SOURCES !! s) ∧
  ∀ f, flt = Some f → f ≠ "" → ∃ a b, u = (a ++ f ++ b)%string.
Proof.
  intros Hrun Hin.
  destruct (fetch_all_loop_sound _ _ _ _ _ _ _ _ _ Hrun Hin) as [Hemp|(? & ? & Hpass)].
  { by apply not_elem_of_empty in Hemp. }
  split; [done|]. split; [done|]. intros f Hf Hne.
  apply FilterFacts.contains_spec. by apply Hpass.
Qed.

Lemma add_all_mono (name : string) (l1 l2 : list string) (acc1 acc2 : gset link) :
  (∀ u, u ∈ l1 → u ∈ l2) → acc1 ⊆ acc2 → add_all name l1 acc1 ⊆ add_all name l2 acc2.
Proof.
  intros Hl Hacc e. rewrite !elem_of_add_all.
  intros [?|(u & Hu & ->)]; [left; by apply Hacc|]. right. exists u. split; [by apply Hl|done].
Qed.

Lemma fetch_all_loop_narrow (sources : list string) (flt : option string)
    (follow : bool) (acc1 acc2 : gset link) (w : World) :
  acc1 ⊆ acc2 →
  ∃ filtered unfiltered w',
    fetch_all_loop sources flt follow acc1 w = (Ok filtered, w') ∧
    fetch_all_loop sources None follow acc2 w = (Ok unfiltered, w') ∧
    filtered ⊆ unfiltered.
Proof.
  revert acc1 acc2 w. induction sources as [|name rest IH]; intros acc1 acc2 w Hacc; simpl.
  - by exists acc1, acc2, w.
  - destruct (SOURCES !! name) as [cfg|]; [|by apply IH].
    unfold bind. rewrite !fetch_urls_from_source_run. apply IH.
    apply union_mono; [done|].
    destruct (server _ _) as [r|e]; [|done].
    destruct (bool_decide (error_status r)); [done|].
    destruct (re_findall _ _) as [ms|e]; [|done].
    apply add_all_mono; [|done]. intros u Hu. by apply apply_filter_passes in Hu as [? _].
Qed.

(** X9.  A filter only narrows the aggregate: with and without the filter
    the same requests are sent, and the filtered set of links is a subset of
    the unfiltered one. *)
Theorem filter_narrows_the_aggregate sources flt follow w :
  ∃ filtered unfiltered w',
    fetch_all_urls sources flt follow w = (Ok filtered, w') ∧
    fetch_all_urls sources None follow w = (Ok unfiltered, w') ∧
    filtered ⊆ unfiltered.
Proof. by apply fetch_all_loop_narrow. Qed.

Lemma fetch_all_loop_empty_filter sources follow acc w :
  fetch_all_loop sources (Some "") follow acc w = fetch_all_loop sources None follow acc w.
Proof.
  revert acc w. induction sources as [|name rest IH]; intros acc w; simpl; [done|].
  destruct (SOURCES !! name) as [cfg|]; [|apply IH].
  unfold bind. rewrite !fetch_urls_from_source_run. apply IH.
Qed.

(** X10.  An empty filter string is no filter: [--filter ''] aggregates, and
    so runs, exactly as no [--filter] at all. *)
Theorem empty_filter_is_no_filter sources follow output docs code no_follow w :
  fetch_all_urls sources (Some "") follow w = fetch_all_urls sources None follow w ∧
  main {| arg_filter := Some ""; arg_output := output; arg_claude_docs := docs;
          arg_claude_code := code; arg_no_follow_redirects := no_follow |} w =
  main {| arg_filter := None; arg_output := output; arg_claude_docs := docs;
          arg_claude_code := code; arg_no_follow_redirects := no_follow |} w.
Proof.
  split; [apply fetch_all_loop_empty_filter|].
  unfold main, bind, fetch_all_urls. simpl. by rewrite fetch_all_loop_empty_filter.
Qed.

End AggregatorMore.

(** ** The orchestrator, again *)

Section OrchestratorMore.
Context {lib : Library}.
Import PyStr PosixPath PyStrFacts PathFacts DirnameFacts FS FSFacts FSMore.

Lemma read_file_exists fs p content : read_file fs p = Some content → exists_ fs p = true.
Proof.
  unfold read_file, exists_. destruct (resolve fs p) as [n|]; [|done].
  intros _. by apply bool_decide_eq_true.
Qed.

(** A round of the loop that attempts the download. *)
Lemma process_entry_attempt output url source_name t w local_path w1 :
  create_directory_structure url output source_name w = (Ok local_path, w1) →
  exists_ (fs w1) local_path = false →
  process_entry output (url, source_name) t w =
    match download_file url local_path w1 with
    | (Ok ok, w2) =>
        (Ok (count ok t), {| fs := fs w2; trace := trace w2 ++ [EvSleep (1 # 2)] |})
    | (Raise e, w2) => (Raise e, w2)
    end.
Proof.
  intros Hcds Hex. unfold process_entry, bind. rewrite Hcds.
  unfold os_path_exists. rewrite Hex.
  destruct (download_file url local_path w1) as [[ok|e] w2]; [|done].
  unfold time_sleep, emit, ret. by destruct ok.
Qed.

(** After the path mapper, the downloader finds the directory in place. *)
Lemma download_after_mapping url output source_name w local_path w1 :
  create_directory_structure url output source_name w = (Ok local_path, w1) →
  download_file url local_path w1 =
    match server (trace w1) (file_request url true) with
    | Raise _ => (Ok false, after_request w1 (file_request url true))
    | Ok r =>
        if bool_decide (error_status r)
        then (Ok false, after_request w1 (file_request url true))
        else
          match write_file (fs w1) local_path (text r) with
          | Some fs2 =>
              (Ok true, {| fs := fs2;
                           trace := trace w1 ++ [EvRequest (file_request url true)] |})
          | None => (Ok false, after_request w1 (file_request url true))
          end
    end.
Proof.
  intros (parsed & h & f & _ & _ & Hf & -> & Hdir & _)%create_directory_structure_inv.
  rewrite download_file_unfold.
  destruct (server _ _) as [r|e]; [|done]. case_bool_decide; [done|].
  destruct (dirname_app h f Hf) as [_ Hsame].
  rewrite <- (isdir_same_path _ _ _ Hsame) in Hdir.
  by rewrite (isdir_makedirs _ _ Hdir).
Qed.

(** One round of the loop keeps what is on disk. *)
Lemma process_entry_keeps output url source_name t w k n :
  lookup_node (fs w) k = Some n →
  lookup_node (fs (process_entry output (url, source_name) t w).2) k = Some n.
Proof.
  intros Hk.
  pose proof (process_entry_cases output url source_name t w) as Hcases.
  destruct (create_directory_structure url output source_name w)
    as [[local_path|e] w1] eqn:Hcds.
  - assert (lookup_node (fs w1) k = Some n) as Hk1.
    { pose proof (create_directory_structure_inv _ _ _ _ _ _ Hcds)
        as (parsed & h & f & _ & _ & _ & _ & _ & _ & Hmk & _).
      pose proof (makedirs_keeps (fs w) (join output (source_name ::
                    removelast (path_parts_of parsed))) k n Hk) as Hkeep.
      by rewrite Hmk in Hkeep. }
    destruct (exists_ (fs w1) local_path) eqn:Hex; [by rewrite Hcases|].
    rewrite (process_entry_attempt _ _ _ _ _ _ _ Hcds Hex).
    rewrite (download_after_mapping _ _ _ _ _ _ Hcds).
    destruct (server _ _) as [r|e]; [|done]. case_bool_decide; [done|].
    destruct (write_file (fs w1) local_path (text r)) as [fs2|] eqn:Hwrite; [|done].
    simpl. destruct (write_file_elsewhere _ _ _ _ _ _ Hwrite Hk1)
      as [?|(old & _ & Hold)]; [done|].
    apply read_file_exists in Hold. congruence.
  - rewrite Hcases. simpl.
    pose proof (create_directory_structure_unfold url output source_name w) as Hun.
    rewrite Hcds in Hun. destruct (urlparse url) as [parsed|e']; [|by simplify_eq].
    pose proof (makedirs_keeps (fs w) (join output (source_name ::
                  removelast (path_parts_of parsed))) k n Hk) as Hkeep.
    cbv zeta in Hun. destruct (makedirs (fs w) _); by simplify_eq.
Qed.

Lemma download_loop_keeps output entries t w k n :
  lookup_node (fs w) k = Some n →
  lookup_node (fs (download_loop output entries t w).2) k = Some n.
Proof.
  revert t w. induction entries as [|[url src] rest IH]; intros t w Hk; [done|].
  rewrite download_loop_cons.
  pose proof (process_entry_keeps output url src t w k n Hk) as Hkeep.
  destruct (process_entry output (url, src) t w) as [[t'|e] w1]; [|done].
  by apply IH.
Qed.

(** X11.  A run only adds to the disk: whatever file or directory was there
    before [main] is there afterwards, with the same content, however the
    run ends. *)
Theorem run_keeps_what_is_on_disk args w k n :
  lookup_node (fs w) k = Some n →
  lookup_node (fs (main args w).2) k = Some n.
Proof.
  intros Hk. unfold main. unfold bind at 1.
  pose proof (fetch_all_loop_world (sources_to_fetch args) (arg_filter args)
                (negb (arg_no_follow_redirects args)) ∅ w) as Hworld.
  unfold fetch_all_urls.
  destruct (fetch_all_loop _ _ _ _ w) as [[urls|e] w1]; simpl in Hworld; subst w1;
    [|done].
  case_bool_decide; [done|]. unfold bind at 1, os_makedirs. simpl.
  pose proof (makedirs_keeps (fs w) (arg_output args) k n Hk) as Hkeep.
  destruct (makedirs (fs w) (arg_output args)) as [fs1|fs1]; [|done].
  simpl in Hkeep. unfold bind, ret.
  pose proof (download_loop_keeps (arg_output args) (sorted (elements urls))
                {| successful := 0; failed := 0; skipped := 0 |}
                {| fs := fs1; trace := trace w ++ index_requests
                     (registered_of (sources_to_fetch args))
                     (negb (arg_no_follow_redirects args)) |} k n Hkeep) as Hloop.
  by destruct (download_loop _ _ _ _) as [[t|e] w2].
Qed.

End OrchestratorMore.

Section RunProperties.
Context {lib : Library}.
Import PyStr PosixPath PyStrFacts PathFacts DirnameFacts FS FSFacts FSMore.

Lemma fetch_all_loop_offline sources flt follow acc w :
  offline →
  (fetch_all_loop sources flt follow acc w).1 = Ok acc.
Proof.
  intros Hoff. revert acc w. induction sources as [|name rest IH]; intros acc w; simpl;
    [done|].
  destruct (SOURCES !! name) as [cfg|]; [|apply IH].
  unfold bind. rewrite fetch_urls_from_source_run.
  destruct (Hoff (trace w) (index_request cfg follow)) as [e ->].
  rewrite (right_id_L ∅ (∪)). apply IH.
Qed.

(** X12.  When no server can be reached, [main] asks each selected index
    once, finds no link and stops there: it returns without a tally and has
    created nothing on disk, not even the output directory. *)
Theorem offline_run_creates_nothing args w :
  offline →
  main args w =
    (Ok None,
     {| fs := fs w;
        trace := trace w ++
          index_requests (registered_of (sources_to_fetch args))
            (negb (arg_no_follow_redirects args)) |}).
Proof.
  intros Hoff. unfold main. unfold bind at 1.
  pose proof (fetch_all_loop_world (sources_to_fetch args) (arg_filter args)
                (negb (arg_no_follow_redirects args)) ∅ w) as Hworld.
  pose proof (fetch_all_loop_offline (sources_to_fetch args) (arg_filter args)
                (negb (arg_no_follow_redirects args)) ∅ w Hoff) as Hres.
  unfold fetch_all_urls.
  destruct (fetch_all_loop _ _ _ _ w) as [r w1]. simpl in *. subst r w1.
  by rewrite bool_decide_eq_true_2.
Qed.

(** X13.  The tally accounts for every aggregated link exactly once: when
    [main] prints a tally, successful + failed + skipped is the number of
    links; it prints none only when there is no link. *)
Theorem tally_counts_every_link args w :
  ∃ urls w1,
    fetch_all_urls (sources_to_fetch args) (arg_filter args)
      (negb (arg_no_follow_redirects args)) w = (Ok urls, w1) ∧
    match (main args w).1 with
    | Ok (Some t) => urls ≠ ∅ ∧ successful t + failed t + skipped t = size urls
    | Ok None => urls = ∅
    | Raise _ => urls ≠ ∅
    end.
Proof.
  destruct (fetch_all_loop_total (sources_to_fetch args) (arg_filter args)
              (negb (arg_no_follow_redirects args)) ∅ w) as (urls & w1 & Hfetch).
  exists urls, w1. split; [done|].
  unfold main. unfold bind at 1. unfold fetch_all_urls. rewrite Hfetch.
  case_bool_decide as Hemp; [done|].
  unfold bind at 1. destruct (os_makedirs (arg_output args) w1) as [[[]|e] w2]; [|done].
  unfold bind, ret.
  pose proof (download_loop_events (arg_output args) (sorted (elements urls))
                {| successful := 0; failed := 0; skipped := 0 |} w2)
    as (attempted & _ & _ & Htally).
  destruct (download_loop _ _ _ _) as [[t|e] w3]; [|done]. simpl in *.
  split; [done|]. destruct Htally as [H1 H2].
  assert (length (sorted (elements urls)) = size urls) as Hlen.
  { unfold sorted. by rewrite merge_sort_Permutation. }
  lia.
Qed.

(** X14.  [main] only ever asks for registered sources, so the guard of
    [fetch_all_urls] never drops one: the selection is not empty, has no
    repetition, lists [claude-docs] before [claude-code], and holds a source
    exactly when its flag is set or no flag is set at all. *)
Theorem selected_sources_are_registered args :
  sources_to_fetch args ≠ [] ∧
  sources_to_fetch args `sublist_of` ["claude-docs"; "claude-code"] ∧
  (∀ s, s ∈ sources_to_fetch args → is_Some (SOURCES !! s)) ∧
  map fst (registered_of (sources_to_fetch args)) = sources_to_fetch args ∧
  ("claude-docs" ∈ sources_to_fetch args ↔
     arg_claude_docs args = true ∨ arg_claude_code args = false) ∧
  ("claude-code" ∈ sources_to_fetch args ↔
     arg_claude_code args = true ∨ arg_claude_docs args = false).
Proof.
  assert (∀ x : string, [x] `sublist_of` ["claude-docs"; "claude-code"] ↔
                        x = "claude-docs" ∨ x = "claude-code") as Hone.
  { intros x. rewrite sublist_cons_l. split.
    - intros (k1 & k2 & Heq & _).
      destruct k1 as [|a [|b [|c k1]]]; simplify_eq/=; auto.
    - intros [-> | ->].
      + exists [], ["claude-code"]. split; [done|apply sublist_nil_l].
      + exists ["claude-docs"], []. split; [done|apply sublist_nil_l]. }
  unfold sources_to_fetch.
  destruct (arg_claude_docs args), (arg_claude_code args); simpl.
  all: split; [done|].
  all: split; [first [done | apply Hone; by auto]|].
  all: split; [intros s Hs; apply SOURCES_names; set_solver|].
  all: split; [done|].
  all: rewrite ?elem_of_cons, ?elem_of_nil; split; split; intros; auto.
  all: naive_solver.
Qed.

Lemma process_entry_raises output url source_name t w e :
  (process_entry output (url, source_name) t w).1 = Raise e →
  e = OSError "makedirs" ∨ urlparse url = Raise e.
Proof.
  pose proof (process_entry_cases output url source_name t w) as Hcases.
  pose proof (create_directory_structure_unfold url output source_name w) as Hun.
  destruct (create_directory_structure url output source_name w)
    as [[local_path|e'] w1].
  - destruct (exists_ (fs w1) local_path); [by rewrite Hcases|].
    by destruct Hcases as (ok & fs' & ->).
  - rewrite Hcases. simpl. intros [= ->].
    destruct (urlparse url) as [parsed|e']; [|right; congruence].
    cbv zeta in Hun. destruct (makedirs _ _); [done|]. left. congruence.
Qed.

Lemma download_loop_raises output entries t w e :
  (download_loop output entries t w).1 = Raise e →
  e = OSError "makedirs" ∨ ∃ url source_name, (url, source_name) ∈ entries ∧
                                              urlparse url = Raise e.
Proof.
  revert t w. induction entries as [|[url src] rest IH]; intros t w; [done|].
  rewrite download_loop_cons.
  pose proof (process_entry_raises output url src t w e) as Hone.
  destruct (process_entry output (url, src) t w) as [[t'|e'] w1].
  - intros Hrest. destruct (IH _ _ Hrest) as [?|(u & s & Hin & ?)]; [by left|].
    right. exists u, s. split; [by right|done].
  - simpl. intros [= ->]. destruct (Hone eq_refl) as [?|?]; [by left|].
    right. exists url, src. split; [left|done].
Qed.

(** X15.  No network failure aborts a run.  [main] raises only when
    [os.makedirs] fails, for the output directory or for the directory of a
    link, or when the URL of an aggregated link cannot be parsed. *)
Theorem run_aborts_only_on_disk_or_url_errors args w e :
  (main args w).1 = Raise e →
  e = OSError "makedirs" ∨
  ∃ urls w1 url source_name,
    fetch_all_urls (sources_to_fetch args) (arg_filter args)
      (negb (arg_no_follow_redirects args)) w = (Ok urls, w1) ∧
    (url, source_name) ∈ urls ∧ urlparse url = Raise e.
Proof.
  destruct (fetch_all_loop_total (sources_to_fetch args) (arg_filter args)
              (negb (arg_no_follow_redirects args)) ∅ w) as (urls & w1 & Hfetch).
  unfold main. unfold bind at 1. unfold fetch_all_urls. rewrite Hfetch.
  case_bool_decide as Hemp; [done|].
  unfold bind at 1, os_makedirs.
  destruct (makedirs (fs w1) (arg_output args)) as [fs1|fs1];
    [|simpl; intros [= <-]; by left].
  unfold bind, ret.
  pose proof (download_loop_raises (arg_output args) (sorted (elements urls))
                {| successful := 0; failed := 0; skipped := 0 |}
                {| fs := fs1; trace := trace w1 |} e) as Hloop.
  destruct (download_loop _ _ _ _) as [[t|e'] w2]; [done|]. simpl in *.
  intros [= ->]. destruct (Hloop eq_refl) as [?|(url & src & Hin & Hparse)]; [by left|].
  right. exists urls, w1, url, src. split; [done|]. split; [|done].
  rewrite sorted_Permutation in Hin. by apply elem_of_elements in Hin.
Qed.

(** X16.  A page that was downloaded is not downloaded again: when a round
    of the loop counts a link as successful, a later round for the same link,
    started from the state the first one left, skips it and changes
    nothing, sending no request and making no pause. *)
Theorem successful_entry_is_skipped_next_time output url source_name t t1 w w1 t2 :
  process_entry output (url, source_name) t w = (Ok t1, w1) →
  successful t1 = S (successful t) →
  process_entry output (url, source_name) t2 w1 = (Ok (skip t2), w1).
Proof.
  intros Hfirst Hcount.
  pose proof (process_entry_cases output url source_name t w) as Hcases.
  pose proof (create_directory_structure_unfold url output source_name w) as Hun.
  destruct (create_directory_structure url output source_name w)
    as [[local_path|e] w0] eqn:Hcds; [|congruence].
  destruct (exists_ (fs w0) local_path) eqn:Hex.
  { rewrite Hcases in Hfirst. simplify_eq/=. lia. }
  clear Hcases.
  rewrite (process_entry_attempt _ _ _ _ _ _ _ Hcds Hex) in Hfirst.
  rewrite (download_after_mapping _ _ _ _ _ _ Hcds) in Hfirst.
  assert (∃ r fs2, write_file (fs w0) local_path (text r) = Some fs2 ∧
                   w1 = {| fs := fs2;
                           trace := (trace w0 ++ [EvRequest (file_request url true)])
                                      ++ [EvSleep (1 # 2)] |}) as (r & fs2 & Hwrite & ->).
  { destruct (server _ _) as [r|e]; [|simplify_eq/=; lia].
    case_bool_decide; [simplify_eq/=; lia|].
    destruct (write_file _ _ _) as [fs2|] eqn:Hwrite; [|simplify_eq/=; lia].
    exists r, fs2. split; [done|]. by simplify_eq/=. }
  clear Hfirst.
  destruct (urlparse url) as [parsed|e] eqn:Hparse; [|done]. cbv zeta in Hun.
  set (d := join output (source_name :: removelast (path_parts_of parsed))) in *.
  destruct (makedirs (fs w) d) as [fs0|fs0] eqn:Hmk0; [|done].
  assert (local_path = join_step d (default "" (last (path_parts_of parsed)))) as Hlocal.
  { by simplify_eq/=. }
  assert (exists_ fs2 local_path = true) as Hex2.
  { eapply read_file_exists, write_file_read, Hwrite. }
  assert (makedirs fs2 d = Done fs2) as Hmk2.
  { apply (makedirs_noop fs2 d (default "" (last (path_parts_of parsed)))).
    - intros Hd. by rewrite Hd in Hmk0.
    - destruct (last (path_parts_of parsed)) as [f|] eqn:Hf; [|done]. simpl.
      pose proof (split_pieces_sep_free sep (strip sep (path parsed))) as Hall.
      fold (path_parts_of parsed) in Hall.
      apply last_Some in Hf as [init Hinit]. rewrite Hinit in Hall.
      apply Forall_app in Hall as [_ Hall]. by inversion Hall.
    - by rewrite <- Hlocal. }
  pose proof (process_entry_cases output url source_name t2
                {| fs := fs2;
                   trace := (trace w0 ++ [EvRequest (file_request url true)])
                              ++ [EvSleep (1 # 2)] |}) as Hcases.
  rewrite create_directory_structure_unfold, Hparse in Hcases. cbv zeta in Hcases.
  fold d in Hcases. simpl in Hcases. rewrite Hmk2 in Hcases. simpl in Hcases.
  change (join d [default "" (last (path_parts_of parsed))])
    with (join_step d (default "" (last (path_parts_of parsed)))) in Hcases.
  by rewrite <- Hlocal, Hex2 in Hcases.
Qed.

(** X17.  A round of the loop mirrors a new page: when the path mapper
    returns a target that is not on disk, the last segment of the URL path is
    a plain name and the server answers without an error status, the round
    counts a success, sends one request and pauses once, and afterwards the
    target holds the body of the response. *)
Theorem new_page_is_mirrored output url source_name t w local_path w1 parsed name r :
  create_directory_structure url output source_name w = (Ok local_path, w1) →
  exists_ (fs w1) local_path = false →
  urlparse url = Ok parsed →
  last (path_parts_of parsed) = Some name →
  plain_name name →
  server (trace w) (file_request url true) = Ok r →
  ¬ error_status r →
  ∃ fs2,
    process_entry output (url, source_name) t w =
      (Ok (count true t), {| fs := fs2; trace := trace w ++ attempt_events url |}) ∧
    read_file fs2 local_path = Some (text r) ∧
    exists_ fs2 local_path = true.
Proof.
  intros Hcds Hex Hparse Hlast Hname Hserver Hstatus.
  rewrite (process_entry_attempt _ _ _ _ _ _ _ Hcds Hex).
  rewrite (download_after_mapping _ _ _ _ _ _ Hcds).
  pose proof (create_directory_structure_inv _ _ _ _ _ _ Hcds)
    as (parsed' & h & f & Hparse' & Hlast' & Hfree & -> & Hdir & _ & _ & Htrace).
  assert (parsed' = parsed) as -> by congruence.
  assert (f = name) as -> by congruence.
  rewrite Htrace, Hserver. rewrite bool_decide_eq_false_2 by done.
  assert (isdir (fs w1) (h ++ "/" ++ name) = false) as Hnodir.
  { destruct (isdir (fs w1) (h ++ "/" ++ name)) eqn:E; [|done].
    apply isdir_exists in E. congruence. }
  destruct (write_file_ok (fs w1) h name (text r) Hfree Hname Hdir Hnodir)
    as [fs2 Hwrite].
  rewrite Hwrite. exists fs2. simpl. rewrite <- app_assoc. split; [done|].
  pose proof (write_file_read _ _ _ _ Hwrite) as Hread.
  split; [done|]. by apply read_file_exists in Hread.
Qed.

End RunProperties.

(** ** Concrete runs of the further properties *)

Lemma failed_download_touches_nothing_witness :
  @download_file (Sample.library Sample.two_indexes)
    "https://docs.claude.com/en/guide.md" "out/claude-docs/en/guide.md"
    Sample.prepared_world =
  (Ok false,
   after_request Sample.prepared_world
     (file_request "https://docs.claude.com/en/guide.md" true)).
Proof.
  apply (failed_download_touches_nothing (lib := Sample.library Sample.two_indexes)).
  vm_compute. exact I.
Defined.

Lemma download_needs_a_directory_part_witness :
  @download_file (Sample.library Sample.two_indexes) Sample.api_url "api.md"
    Sample.world0 =
  (Ok false, after_request Sample.world0 (file_request Sample.api_url true)).
Proof.
  apply (download_needs_a_directory_part (lib := Sample.library Sample.two_indexes)).
  reflexivity.
Defined.


Lemma download_onto_a_directory_fails_witness :
  @download_file (Sample.library Sample.two_indexes) Sample.api_url
    "out/claude-docs/en" Sample.prepared_world =
  (Ok false, after_request Sample.prepared_world (file_request Sample.api_url true)).
Proof.
  apply (download_onto_a_directory_fails (lib := Sample.library Sample.two_indexes)).
  vm_compute. reflexivity.
Defined.

Lemma create_directory_structure_idempotent_witness :
  @create_directory_structure (Sample.library []) Sample.api_url "out" "claude-docs"
    Sample.prepared_world =
  (Ok "out/claude-docs/en/api.md", Sample.prepared_world).
Proof.
  apply (create_directory_structure_idempotent (lib := Sample.library [])
           Sample.api_url "out" "claude-docs" Sample.world0).
  vm_compute. reflexivity.
Defined.

Lemma aggregated_links_are_tagged_and_filtered_witness :
  "claude-code" ∈ ["claude-docs"; "claude-code"] ∧
  is_Some (SOURCES !! "claude-code") ∧
  ∀ f, Some "api" = Some f → f ≠ "" →
       ∃ a b, Sample.api_url = (a ++ f ++ b)%string.
Proof.
  eapply (aggregated_links_are_tagged_and_filtered
            (lib := Sample.library Sample.two_indexes)
            ["claude-docs"; "claude-code"] (Some "api") true Sample.world0).
  - vm_compute. reflexivity.
  - apply elem_of_elements. vm_compute. first [left | right; left].
Defined.

Lemma run_keeps_what_is_on_disk_witness :
  FS.lookup_node
    (fs (@main (Sample.library Sample.two_indexes) Sample.args_default
           Sample.mirrored_world).2)
    ["work"; "out"; "claude-docs"; "en"; "api.md"] = Some (FS.File "# API").
Proof.
  apply (run_keeps_what_is_on_disk (lib := Sample.library Sample.two_indexes)).
  vm_compute. reflexivity.
Defined.

Lemma offline_run_creates_nothing_witness :
  @main (Sample.library []) Sample.args_default Sample.world0 =
  (Ok None,
   {| fs := Sample.empty_fs;
      trace := [] ++ index_requests
                 (registered_of (sources_to_fetch Sample.args_default)) true |}).
Proof.
  apply (offline_run_creates_nothing (lib := Sample.library [])
           Sample.args_default Sample.world0).
  intros history r. exists (RequestException "connection failed"). reflexivity.
Defined.

Lemma run_aborts_only_on_disk_or_url_errors_witness :
  OSError "makedirs" = OSError "makedirs" ∨
  ∃ urls w1 url source_name,
    @fetch_all_urls (Sample.library Sample.two_indexes)
      (sources_to_fetch Sample.args_default) None true Sample.blocked_world =
      (Ok urls, w1) ∧
    (url, source_name) ∈ urls ∧
    @urlparse (Sample.library Sample.two_indexes) url = Raise (OSError "makedirs").
Proof.
  apply (run_aborts_only_on_disk_or_url_errors (lib := Sample.library Sample.two_indexes)
           Sample.args_default Sample.blocked_world (OSError "makedirs")).
  vm_compute. reflexivity.
Defined.

Lemma successful_entry_is_skipped_next_time_witness :
  @process_entry (Sample.library Sample.two_indexes) "out"
    (Sample.api_url, "claude-docs") tally0
    (@process_entry (Sample.library Sample.two_indexes) "out"
       (Sample.api_url, "claude-docs") tally0 Sample.world0).2 =
  (Ok (skip tally0),
   (@process_entry (Sample.library Sample.two_indexes) "out"
      (Sample.api_url, "claude-docs") tally0 Sample.world0).2).
Proof.
  apply (successful_entry_is_skipped_next_time (lib := Sample.library Sample.two_indexes)
           "out" Sample.api_url "claude-docs" tally0 (count true tally0) Sample.world0).
  - vm_compute. reflexivity.
  - reflexivity.
Defined.

Lemma new_page_is_mirrored_witness :
  ∃ fs2,
    @process_entry (Sample.library Sample.two_indexes) "out"
      (Sample.api_url, "claude-docs") tally0 Sample.world0 =
      (Ok (count true tally0),
       {| fs := fs2; trace := [] ++ attempt_events Sample.api_url |}) ∧
    FS.read_file fs2 "out/claude-docs/en/api.md" = Some "# API" ∧
    FS.exists_ fs2 "out/claude-docs/en/api.md" = true.
Proof.
  apply (new_page_is_mirrored (lib := Sample.library Sample.two_indexes)
           "out" Sample.api_url "claude-docs" tally0 Sample.world0
           "out/claude-docs/en/api.md" Sample.prepared_world
           {| scheme := "https"; netloc := "docs.claude.com"; path := "/en/api.md" |}
           "api.md" {| status_code := 200; text := "# API" |}).
  - vm_compute. reflexivity.
  - vm_compute. reflexivity.
  - reflexivity.
  - reflexivity.
  - repeat split; discriminate.
  - reflexivity.
  - unfold error_status. simpl. lia.
Defined.
